(** * eslint-plugin-drizzle-postgres: the rule engine, embedded and verified

    The rules of the plugin are visitors over an ESTree syntax tree.  This
    development embeds the tree, the pre-order traversal that drives the
    visitors, the JavaScript string and regular-expression primitives the
    rules call, and the rules themselves as executable functions; it then
    states and proves properties of the rules. *)

From Stdlib Require Import String Ascii List Bool Arith NArith Lia DecimalString.
From stdpp Require Import gmap strings.
Import ListNotations.

Set Warnings "-register-all,-clear-no-such-hyp".

Local Open Scope string_scope.
Local Open Scope list_scope.

(* ===================================================================== *)
(** * Part I: definitions *)
(* ===================================================================== *)

(** ** JavaScript string primitives

    Strings are byte strings; [toLowerCase] folds the ASCII letters only
    (bytes above 127 are left alone). *)

Module Js.

Definition code (c : ascii) : N := N_of_ascii c.

Definition between (lo hi : N) (c : ascii) : bool :=
  (lo <=? code c)%N && (code c <=? hi)%N.

Definition isUpper : ascii -> bool := between 65 90.
Definition isLower : ascii -> bool := between 97 122.
Definition isDigit : ascii -> bool := between 48 57.

Definition lowerChar (c : ascii) : ascii :=
  if isUpper c then ascii_of_N (code c + 32) else c.

Definition upperChar (c : ascii) : ascii :=
  if isLower c then ascii_of_N (code c - 32) else c.

Fixpoint toLowerCase (s : string) : string :=
  match s with
  | EmptyString => EmptyString
  | String c s' => String (lowerChar c) (toLowerCase s')
  end.

(** [s.startsWith(p)] *)
Fixpoint startsWith (s p : string) {struct p} : bool :=
  match p with
  | EmptyString => true
  | String c p' =>
      match s with
      | EmptyString => false
      | String d s' => Ascii.eqb c d && startsWith s' p'
      end
  end.

(** [s.includes(p)] on strings: [p] occurs somewhere in [s]. *)
Fixpoint includes (s p : string) : bool :=
  startsWith s p ||
  match s with
  | EmptyString => false
  | String _ s' => includes s' p
  end.

(** [s.endsWith(p)] *)
Fixpoint endsWith (s p : string) : bool :=
  String.eqb s p ||
  match s with
  | EmptyString => false
  | String _ s' => endsWith s' p
  end.

(** [xs.includes(x)] on arrays of strings. *)
Definition arrayIncludes (xs : list string) (x : string) : bool :=
  existsb (String.eqb x) xs.

(** [xs.join("")] *)
Definition join (xs : list string) : string :=
  fold_right String.append EmptyString xs.

(** [String(n)] for a non-negative integer. *)
Definition stringOfNat (n : nat) : string :=
  NilZero.string_of_uint (Nat.to_uint n).

(** A string is truthy when it is not empty. *)
Definition truthy (s : string) : bool :=
  match s with EmptyString => false | _ => true end.

End Js.

(** ** Regular expressions

    A backtracking matcher for the fragment of JavaScript regular
    expressions the rules use: literals, classes, sequence, alternation,
    greedy and lazy repetition, capture groups and the two anchors, with
    the [i] flag.  The matcher is written in continuation-passing style
    and tries alternatives in the order the JavaScript engine does, so
    that the first match and its captures are the engine's. *)

Module Regex.

Inductive regex : Type :=
| Eps
| Chr (c : ascii)
| Class (p : ascii -> bool)
| Seq (r1 r2 : regex)
| Alt (r1 r2 : regex)
| Star (greedy : bool) (r : regex)
| Group (i : nat) (r : regex)
| Bol
| Eol.

Definition Plus (r : regex) : regex := Seq r (Star true r).
Definition Opt (r : regex) : regex := Alt r Eps.

Fixpoint Lit (s : string) : regex :=
  match s with
  | EmptyString => Eps
  | String c s' => Seq (Chr c) (Lit s')
  end.

(** [\s], [\w] and [.] on bytes. *)
Definition space (c : ascii) : bool :=
  let n := Js.code c in
  (n =? 32)%N || Js.between 9 13 c.

Definition word (c : ascii) : bool :=
  Js.isLower c || Js.isUpper c || Js.isDigit c || (Js.code c =? 95)%N.

Definition dot (c : ascii) : bool :=
  negb ((Js.code c =? 10)%N || (Js.code c =? 13)%N).

Definition oneOf (cs : string) (c : ascii) : bool :=
  existsb (Ascii.eqb c) (list_ascii_of_string cs).

(** Captures: group number to captured text. *)
Definition captures := list (nat * string).

Fixpoint capture (i : nat) (cs : captures) : option string :=
  match cs with
  | [] => None
  | (j, s) :: cs' => if Nat.eqb i j then Some s else capture i cs'
  end.

(** The text consumed between two suffixes of the input. *)
Fixpoint takeN (n : nat) (s : string) : string :=
  match n, s with
  | S n', String c s' => String c (takeN n' s')
  | _, _ => EmptyString
  end.

Definition consumed (s s' : string) : string :=
  takeN (String.length s - String.length s') s.

Definition chrMatch (icase : bool) (c d : ascii) : bool :=
  if icase then Ascii.eqb (Js.upperChar c) (Js.upperChar d) else Ascii.eqb c d.

Definition classMatch (icase : bool) (p : ascii -> bool) (d : ascii) : bool :=
  p d || (icase && (p (Js.upperChar d) || p (Js.lowerChar d))).

Definition orElse {A} (x y : option A) : option A :=
  match x with Some _ => x | None => y end.

Definition continuation := bool -> string -> captures -> option captures.

(** The iterations of a star.  [step] matches the body once; an iteration
    that consumes nothing is given up, as the engine does.  Greedy stars
    try one more iteration before leaving, lazy ones leave first.  [n]
    bounds the iterations left: each one consumes a character. *)
Fixpoint starLoop (greedy : bool)
  (step : bool -> string -> captures -> continuation -> option captures)
  (k : continuation) (n : nat) (b : bool) (s : string) (cs : captures)
  : option captures :=
  match n with
  | O => k b s cs
  | S n' =>
      let again :=
        step b s cs
          (fun b' s' cs' =>
             if Nat.ltb (String.length s') (String.length s)
             then starLoop greedy step k n' b' s' cs' else None) in
      if greedy then orElse again (k b s cs) else orElse (k b s cs) again
  end.

(** [m icase r atStart s cs k]: match [r] at the front of [s]; [atStart]
    tells whether [s] is the whole input; [k] continues with the rest. *)
Fixpoint m (icase : bool) (r : regex) (atStart : bool) (s : string)
  (cs : captures) (k : continuation) {struct r} : option captures :=
  match r with
  | Eps => k atStart s cs
  | Chr c =>
      match s with
      | String d s' => if chrMatch icase c d then k false s' cs else None
      | EmptyString => None
      end
  | Class p =>
      match s with
      | String d s' => if classMatch icase p d then k false s' cs else None
      | EmptyString => None
      end
  | Seq r1 r2 =>
      m icase r1 atStart s cs (fun b s' cs' => m icase r2 b s' cs' k)
  | Alt r1 r2 =>
      orElse (m icase r1 atStart s cs k) (m icase r2 atStart s cs k)
  | Star greedy r' =>
      starLoop greedy (m icase r') k (String.length s) atStart s cs
  | Group i r' =>
      m icase r' atStart s cs
        (fun b s' cs' => k b s' ((i, consumed s s') :: cs'))
  | Bol => if atStart then k atStart s cs else None
  | Eol => match s with EmptyString => k atStart s cs | _ => None end
  end.

(** The end of the pattern: the match is found. *)
Definition accept : continuation := fun _ _ cs => Some cs.

(** [re.exec(s)]: the leftmost match, tried from every start index. *)
Fixpoint execFrom (icase : bool) (r : regex) (atStart : bool) (s : string)
  : option captures :=
  orElse (m icase r atStart s [] accept)
    match s with
    | EmptyString => None
    | String _ s' => execFrom icase r false s'
    end.

Definition exec (icase : bool) (r : regex) (s : string) : option captures :=
  execFrom icase r true s.

(** [re.test(s)] *)
Definition test (icase : bool) (r : regex) (s : string) : bool :=
  match exec icase r s with Some _ => true | None => false end.

End Regex.

(** ** The syntax tree

    ESTree nodes, as the parser hands them to the rules.  Every node
    carries its [type] tag as its constructor.  Literal values are
    strings, booleans, [null] and non-negative integers.  A raw statement
    written as a call, [sql(`...`)], is a [CallExpression] over a
    [TemplateLiteral]; written as a tagged template it is a
    [TaggedTemplateExpression]. *)

Inductive literal : Type :=
| LString (s : string)
| LNumber (n : nat)
| LBoolean (b : bool)
| LNull.

Inductive node : Type :=
| Identifier (name : string)
| Literal (value : literal)
| TemplateLiteral (quasis : list string) (expressions : list node)
| MemberExpression (object property : node)
| CallExpression (callee : node) (arguments : list node)
| ObjectExpression (properties : list node)
| Property (key value : node)
| SpreadElement (argument : node)
| ArrowFunctionExpression (params : list node) (body : node)
| FunctionExpression (params : list node) (body : node)
| BlockStatement (body : list node)
| ReturnStatement (argument : option node)
| ExpressionStatement (expression : node)
| AwaitExpression (argument : node)
| VariableDeclaration (declarations : list node)
| VariableDeclarator (id : node) (init : option node)
| Program (body : list node)
| TaggedTemplateExpression (tag quasi : node).

(** Induction over the tree, with the children lists under [Forall]. *)

Section NodeInduction.

Variable P : node -> Prop.

Hypothesis HIdentifier : forall name, P (Identifier name).
Hypothesis HLiteral : forall v, P (Literal v).
Hypothesis HTemplate : forall qs es, Forall P es -> P (TemplateLiteral qs es).
Hypothesis HMember : forall o p, P o -> P p -> P (MemberExpression o p).
Hypothesis HCall : forall c args, P c -> Forall P args -> P (CallExpression c args).
Hypothesis HObject : forall ps, Forall P ps -> P (ObjectExpression ps).
Hypothesis HProperty : forall k v, P k -> P v -> P (Property k v).
Hypothesis HSpread : forall a, P a -> P (SpreadElement a).
Hypothesis HArrow : forall ps b, Forall P ps -> P b -> P (ArrowFunctionExpression ps b).
Hypothesis HFunction : forall ps b, Forall P ps -> P b -> P (FunctionExpression ps b).
Hypothesis HBlock : forall b, Forall P b -> P (BlockStatement b).
Hypothesis HReturnNone : P (ReturnStatement None).
Hypothesis HReturnSome : forall a, P a -> P (ReturnStatement (Some a)).
Hypothesis HExpression : forall e, P e -> P (ExpressionStatement e).
Hypothesis HAwait : forall a, P a -> P (AwaitExpression a).
Hypothesis HDeclaration : forall ds, Forall P ds -> P (VariableDeclaration ds).
Hypothesis HDeclaratorNone : forall i, P i -> P (VariableDeclarator i None).
Hypothesis HDeclaratorSome : forall i e, P i -> P e -> P (VariableDeclarator i (Some e)).
Hypothesis HProgram : forall b, Forall P b -> P (Program b).
Hypothesis HTagged : forall t q, P t -> P q -> P (TaggedTemplateExpression t q).

Fixpoint node_ind' (n : node) : P n :=
  let all := fix all (l : list node) : Forall P l :=
    match l with
    | [] => List.Forall_nil P
    | x :: l' => @List.Forall_cons _ P x l' (node_ind' x) (all l')
    end in
  match n with
  | Identifier name => HIdentifier name
  | Literal v => HLiteral v
  | TemplateLiteral qs es => HTemplate qs es (all es)
  | MemberExpression o p => HMember o p (node_ind' o) (node_ind' p)
  | CallExpression c args => HCall c args (node_ind' c) (all args)
  | ObjectExpression ps => HObject ps (all ps)
  | Property k v => HProperty k v (node_ind' k) (node_ind' v)
  | SpreadElement a => HSpread a (node_ind' a)
  | ArrowFunctionExpression ps b => HArrow ps b (all ps) (node_ind' b)
  | FunctionExpression ps b => HFunction ps b (all ps) (node_ind' b)
  | BlockStatement b => HBlock b (all b)
  | ReturnStatement None => HReturnNone
  | ReturnStatement (Some a) => HReturnSome a (node_ind' a)
  | ExpressionStatement e => HExpression e (node_ind' e)
  | AwaitExpression a => HAwait a (node_ind' a)
  | VariableDeclaration ds => HDeclaration ds (all ds)
  | VariableDeclarator i None => HDeclaratorNone i (node_ind' i)
  | VariableDeclarator i (Some e) => HDeclaratorSome i e (node_ind' i) (node_ind' e)
  | Program b => HProgram b (all b)
  | TaggedTemplateExpression t q => HTagged t q (node_ind' t) (node_ind' q)
  end.

End NodeInduction.

(** [String(value)] of a literal value. *)
Definition stringOfLiteral (v : literal) : string :=
  match v with
  | LString s => s
  | LNumber n => Js.stringOfNat n
  | LBoolean true => "true"
  | LBoolean false => "false"
  | LNull => "null"
  end.

(** [xs[i]], [undefined] out of range. *)
Definition arg (i : nat) (xs : list node) : option node := nth_error xs i.

(** A finding, as passed to [context.report]. *)
Record Diagnostic : Type := report {
  d_node : node;
  messageId : string;
  data : list (string * string)
}.

(** ** The traversal

    The linter walks the tree in pre-order along the visitor keys and calls
    a rule's handler for a node's type on every node.  A node reaches its
    ancestors through its [parent] link; the walk hands each node over
    together with its chain of ancestors, nearest first. *)

Abbreviation visit := (node * list node)%type.

Fixpoint traverse (anc : list node) (n : node) {struct n} : list visit :=
  let down := traverse (n :: anc) in
  (n, anc) ::
  match n with
  | Identifier _ | Literal _ => []
  | TemplateLiteral _ es => flat_map down es
  | MemberExpression o p => down o ++ down p
  | CallExpression c args => down c ++ flat_map down args
  | ObjectExpression ps => flat_map down ps
  | Property k v => down k ++ down v
  | SpreadElement a => down a
  | ArrowFunctionExpression ps b => flat_map down ps ++ down b
  | FunctionExpression ps b => flat_map down ps ++ down b
  | BlockStatement b => flat_map down b
  | ReturnStatement None => []
  | ReturnStatement (Some a) => down a
  | ExpressionStatement e => down e
  | AwaitExpression a => down a
  | VariableDeclaration ds => flat_map down ds
  | VariableDeclarator i None => down i
  | VariableDeclarator i (Some e) => down i ++ down e
  | Program b => flat_map down b
  | TaggedTemplateExpression t q => down t ++ down q
  end.

(** The nodes of a subtree, in the order the linter visits them. *)
Definition nodes (n : node) : list node := map fst (traverse [] n).

(** A rule that only reports: one handler, called on every visited node. *)
Definition lintWith (handler : node -> list node -> list Diagnostic)
  (program : node) : list Diagnostic :=
  flat_map (fun v : visit => handler (fst v) (snd v)) (traverse [] program).

(** The table constructors every schema rule recognises. *)
Definition isTableCall (n : node) : bool :=
  match n with
  | CallExpression (Identifier name) _ =>
      Js.arrayIncludes ["pgTable"; "mysqlTable"; "sqliteTable"] name
  | _ => false
  end.

(** A fluent chain: [root.m1(args1).m2(args2)...], innermost segment first. *)
Abbreviation segment := (string * list node)%type.

Definition callOn (receiver : node) (sg : segment) : node :=
  CallExpression (MemberExpression receiver (Identifier (fst sg))) (snd sg).

Definition chain (root : node) (segs : list segment) : node :=
  fold_left callOn segs root.

(** ** limit-join-complexity *)

Module LimitJoinComplexity.

Record Options : Type := { maxJoins : option nat }.

(** [options.maxJoins || 3] *)
Definition maxJoinsOf (options : Options) : nat :=
  match maxJoins options with
  | Some (S n) => S n
  | _ => 3
  end.

Definition joinMethods : list string :=
  ["leftJoin"; "innerJoin"; "rightJoin"; "fullJoin"].

(** A call whose callee is a member access of a join method. *)
Definition isJoinCall (n : node) : bool :=
  match n with
  | CallExpression (MemberExpression _ (Identifier name)) _ =>
      Js.arrayIncludes joinMethods name
  | _ => false
  end.

(** The [while (current)] loop: [current] with its own ancestors, and the
    count so far.  Every step moves [current] to an ancestor. *)
Fixpoint walk (current : node) (anc : list node) (joinCount : nat)
  {struct anc} : nat :=
  let joinCount := if isJoinCall current then S joinCount else joinCount in
  match current with
  | MemberExpression _ _ =>
      match anc with
      | (CallExpression _ _ as parent) :: anc' => walk parent anc' joinCount
      | _ => joinCount
      end
  | CallExpression _ _ =>
      match anc with
      | MemberExpression _ _ :: ((CallExpression _ _ as grand) :: anc'') =>
          walk grand anc'' joinCount
      | parent :: anc' => walk parent anc' joinCount
      | [] => joinCount
      end
  | _ => joinCount
  end.

(** The count the handler computes for a join call. *)
Definition countJoins (anc : list node) : nat :=
  match anc with
  | [] => 1
  | parent :: anc' => walk parent anc' 1
  end.

Definition tooManyJoins (n : node) (count max : nat) : Diagnostic :=
  report n "tooManyJoins"
    [("count", Js.stringOfNat count); ("max", Js.stringOfNat max)].

Definition CallExpression_handler (options : Options) (n : node)
  (anc : list node) : list Diagnostic :=
  if isJoinCall n then
    let joinCount := countJoins anc in
    if Nat.ltb (maxJoinsOf options) joinCount
    then [tooManyJoins n joinCount (maxJoinsOf options)]
    else []
  else [].

(** The diagnostics of a subtree that sits below the ancestors [anc]. *)
Definition lintUnder (options : Options) (anc : list node) (n : node)
  : list Diagnostic :=
  flat_map (fun v : visit => CallExpression_handler options (fst v) (snd v))
    (traverse anc n).

Definition limitJoinComplexityRule (options : Options) (program : node)
  : list Diagnostic :=
  lintWith (CallExpression_handler options) program.

(** *** Vocabulary for the statements about chains *)

Definition isJoinName (methodName : string) : bool :=
  Js.arrayIncludes joinMethods methodName.

(** The number of join segments of a chain. *)
Definition joinSegments (segs : list segment) : nat :=
  List.length (List.filter (fun sg : segment => isJoinName (fst sg)) segs).

(** No join call anywhere inside a subtree. *)
Definition joinFree (n : node) : bool :=
  forallb (fun v : visit => negb (isJoinCall (fst v))) (traverse [] n).

Definition argsJoinFree (sg : segment) : bool := forallb joinFree (snd sg).

(** The chain is a whole expression: what encloses its outermost call is
    neither a call nor a member access. *)
Definition topLevel (anc : list node) : bool :=
  match anc with
  | CallExpression _ _ :: _ | MemberExpression _ _ :: _ => false
  | _ => true
  end.

(** The ancestors of a call that is the whole chain or the receiver of the
    chain's next segment. *)
Definition inChain (anc : list node) : bool :=
  match anc with
  | MemberExpression _ _ :: CallExpression _ _ :: _ => true
  | _ => topLevel anc
  end.

(** What the rule reports along a chain.  [rsegs] lists the segments from
    the outermost call inwards and [k] is the count a join computes at the
    outermost position. *)
Fixpoint chainDiagnostics (options : Options) (root : node)
  (rsegs : list segment) (k : nat) : list Diagnostic :=
  match rsegs with
  | [] => []
  | sg :: inner =>
      (if isJoinName (fst sg) && Nat.ltb (maxJoinsOf options) k
       then [tooManyJoins (chain root (rev rsegs)) k (maxJoinsOf options)]
       else [])
      ++ chainDiagnostics options root inner
           (if isJoinName (fst sg) then S k else k)
  end.

End LimitJoinComplexity.

(** ** no-select-star *)

Module NoSelectStar.

Definition queryMethods : list string :=
  ["from"; "where"; "orderBy"; "limit"; "offset"; "leftJoin"; "innerJoin"].

(** [while (parent && parent.type === "MemberExpression") parent = parent.parent] *)
Fixpoint skipMembers (anc : list node) : list node :=
  match anc with
  | MemberExpression _ _ :: anc' => skipMembers anc'
  | _ => anc
  end.

(** The scan over the calls above: [current] with its own ancestors. *)
Fixpoint scan (current : node) (anc : list node) {struct anc} : bool :=
  match current with
  | CallExpression callee _ =>
      let found :=
        match callee with
        | MemberExpression _ (Identifier methodName) =>
            Js.arrayIncludes queryMethods methodName
        | _ => false
        end in
      if found then true
      else
        match anc with
        | (CallExpression _ _ as parent) :: anc' => scan parent anc'
        | MemberExpression _ _ :: ((CallExpression _ _ as grand) :: anc'') =>
            scan grand anc''
        | _ => false
        end
  | _ => false
  end.

Definition hasQueryMethod (anc : list node) : bool :=
  match skipMembers anc with
  | (CallExpression _ _ as parent) :: anc' => scan parent anc'
  | _ => false
  end.

Definition noSelectStar (n : node) : Diagnostic := report n "noSelectStar" [].

Definition CallExpression_handler (n : node) (anc : list node)
  : list Diagnostic :=
  match n with
  | CallExpression (MemberExpression _ (Identifier name)) args =>
      if String.eqb name "select" && Nat.eqb (List.length args) 0 then
        if hasQueryMethod anc then [noSelectStar n] else []
      else []
  | _ => []
  end.

Definition noSelectStarRule (program : node) : list Diagnostic :=
  lintWith CallExpression_handler program.

End NoSelectStar.

(** ** prevent-rls-bypass *)

Module PreventRLSBypass.

Import Regex.

(** The comments that sit right before a node are the source text's, not
    the tree's: the rule asks the host for them. *)
Record SourceCode : Type := { getCommentsBefore : visit -> list string }.

Definition validBypassReasons : list regex :=
  [ Seq (Lit "RLS") (Seq (Plus (Class space)) (Lit "bypass"));
    Lit "security";
    Lit "admin";
    Seq (Lit "service") (Seq (Plus (Class space)) (Lit "role"));
    Seq (Lit "system") (Seq (Plus (Class space)) (Lit "operation"));
    Lit "migration";
    Seq (Lit "background") (Seq (Plus (Class space)) (Lit "job"));
    Lit "cron" ].

Definition hasValidBypassComment (sourceCode : SourceCode) (v : visit) : bool :=
  existsb
    (fun comment => existsb (fun pattern => test true pattern comment)
                      validBypassReasons)
    (getCommentsBefore sourceCode v).

Definition bypassIndicators : list string :=
  ["serviceRole"; "adminClient"; "serviceClient"; "bypassRLS"].

Definition missingRLSComment (n : node) : Diagnostic :=
  report n "missingRLSComment" [].

Definition bypassDetected (n : node) (method : string) : Diagnostic :=
  report n "bypassDetected" [("method", method)].

Definition isRlsBypass (n : node) : bool :=
  match n with
  | MemberExpression
      (CallExpression (MemberExpression _ (Identifier callee)) _)
      (Identifier property) =>
      String.eqb property "bypass" && String.eqb callee "rls"
  | _ => false
  end.

Definition MemberExpression_handler (sourceCode : SourceCode) (v : visit)
  : list Diagnostic :=
  let n := fst v in
  match n with
  | MemberExpression _ property =>
      (if isRlsBypass n && negb (hasValidBypassComment sourceCode v)
       then [missingRLSComment n] else [])
      ++
      match property with
      | Identifier name =>
          if Js.arrayIncludes bypassIndicators name
          then [bypassDetected n name] else []
      | _ => []
      end
  | _ => []
  end.

Definition isAutoRefreshOff (authProp : node) : bool :=
  match authProp with
  | Property (Identifier key) (Literal (LBoolean false)) =>
      String.eqb key "autoRefreshToken"
  | _ => false
  end.

Definition isServiceAuth (prop : node) : bool :=
  match prop with
  | Property (Identifier key) (ObjectExpression authProps) =>
      String.eqb key "auth" && existsb isAutoRefreshOff authProps
  | _ => false
  end.

Definition isServiceClientCall (n : node) : bool :=
  match n with
  | CallExpression (MemberExpression _ (Identifier name)) args =>
      String.eqb name "createClient" && Nat.leb 2 (List.length args) &&
      match arg 1 args with
      | Some (ObjectExpression props) => existsb isServiceAuth props
      | _ => false
      end
  | _ => false
  end.

Definition securityDefiner : regex :=
  Seq (Lit "SECURITY") (Seq (Plus (Class space)) (Lit "DEFINER")).

Definition isSecurityDefinerCall (n : node) : bool :=
  match n with
  | CallExpression (Identifier name) (TemplateLiteral quasis _ :: _) =>
      String.eqb name "sql" && test true securityDefiner (Js.join quasis)
  | _ => false
  end.

Definition CallExpression_handler (sourceCode : SourceCode) (v : visit)
  : list Diagnostic :=
  let n := fst v in
  match n with
  | CallExpression _ _ =>
      (if isServiceClientCall n && negb (hasValidBypassComment sourceCode v)
       then [bypassDetected n "service role client"] else [])
      ++
      (if isSecurityDefinerCall n && negb (hasValidBypassComment sourceCode v)
       then [bypassDetected n "SECURITY DEFINER"] else [])
  | _ => []
  end.

Definition preventRLSBypassRule (sourceCode : SourceCode) (program : node)
  : list Diagnostic :=
  flat_map
    (fun v => MemberExpression_handler sourceCode v
              ++ CallExpression_handler sourceCode v)
    (traverse [] program).

End PreventRLSBypass.

(** ** enforce-uuid-indexes *)

Module EnforceUuidIndexes.

Definition isUUIDColumn (n : node) : bool :=
  match n with
  | CallExpression (Identifier name) args =>
      if String.eqb name "uuid" then true
      else if Js.arrayIncludes ["varchar"; "text"; "char"] name then
        match arg 0 args with
        | Some (Literal v) =>
            let columnName := Js.toLowerCase (stringOfLiteral v) in
            Js.includes columnName "uuid" ||
            Js.endsWith columnName "_id" ||
            String.eqb columnName "id"
        | _ => false
        end
      else false
  | _ => false
  end.

(** The column call carries [.primaryKey()] or [.unique()] somewhere along
    its receiver chain. *)
Fixpoint hasColumnLevelIndex (current : node) : bool :=
  match current with
  | CallExpression (MemberExpression object property) _ =>
      match property with
      | Identifier propertyName =>
          if Js.arrayIncludes ["primaryKey"; "unique"] propertyName then true
          else hasColumnLevelIndex object
      | _ => hasColumnLevelIndex object
      end
  | _ => false
  end.

Definition getColumnName (n : node) : option string :=
  match n with
  | CallExpression _ args =>
      match arg 0 args with
      | Some (Literal v) => Some (stringOfLiteral v)
      | _ => None
      end
  | _ => None
  end.

(** The property names an [.on(...)] call lists. *)
Definition onArguments (args : list node) : gset string :=
  fold_left
    (fun acc a =>
       match a with
       | MemberExpression _ (Identifier name) => {[ name ]} ∪ acc
       | _ => acc
       end)
    args ∅.

(** The search for the [.on()] call along the receiver chain of one
    property value; it stops at the first one it meets. *)
Fixpoint findOn (current : node) : gset string :=
  match current with
  | CallExpression (MemberExpression object property) args =>
      match property with
      | Identifier name =>
          if String.eqb name "on" then onArguments args else findOn object
      | _ => findOn object
      end
  | _ => ∅
  end.

Definition processIndexObject (properties : list node)
  (indexedProperties : gset string) : gset string :=
  fold_left
    (fun acc prop =>
       match prop with
       | Property _ (CallExpression _ _ as value) => findOn value ∪ acc
       | _ => acc
       end)
    properties indexedProperties.

Definition isReturnStatement (stmt : node) : bool :=
  match stmt with ReturnStatement _ => true | _ => false end.

Definition extractFromBody (body : node) : gset string :=
  match body with
  | BlockStatement stmts =>
      match find isReturnStatement stmts with
      | Some (ReturnStatement (Some (ObjectExpression props))) =>
          processIndexObject props ∅
      | _ => ∅
      end
  | ObjectExpression props => processIndexObject props ∅
  | _ => ∅
  end.

Definition extractIndexedProperties (n : node) : gset string :=
  match n with
  | CallExpression _ args =>
      match arg 2 args with
      | Some (ArrowFunctionExpression _ body) => extractFromBody body
      | Some (FunctionExpression _ body) => extractFromBody body
      | _ => ∅
      end
  | _ => ∅
  end.

(** The base column definition call under the modifiers. *)
Fixpoint baseCallOf (baseCall : node) : node :=
  match baseCall with
  | CallExpression (MemberExpression (CallExpression _ _ as object) _) _ =>
      baseCallOf object
  | _ => baseCall
  end.

Definition enforceUUIDIndexes (n : node) (columnName : string) : Diagnostic :=
  report n "enforceUUIDIndexes" [("columnName", columnName)].

(** The body of the [forEach] over the column properties. *)
Definition checkColumn (tableIndexedProperties : gset string) (prop : node)
  : list Diagnostic :=
  match prop with
  | Property (Identifier propertyName) (CallExpression _ _ as value) =>
      let baseCall := baseCallOf value in
      if isUUIDColumn baseCall then
        let hasColumnIndex := hasColumnLevelIndex value in
        let hasTableIndex :=
          bool_decide (propertyName ∈ tableIndexedProperties) in
        match getColumnName baseCall with
        | Some columnName =>
            if Js.truthy columnName && negb hasColumnIndex
               && negb hasTableIndex
            then [enforceUUIDIndexes value columnName]
            else []
        | None => []
        end
      else []
  | _ => []
  end.

Definition CallExpression_handler (n : node) (anc : list node)
  : list Diagnostic :=
  match n with
  | CallExpression _ args =>
      if isTableCall n then
        let tableIndexedProperties := extractIndexedProperties n in
        match arg 1 args with
        | Some (ObjectExpression props) =>
            flat_map (checkColumn tableIndexedProperties) props
        | _ => []
        end
      else []
  | _ => []
  end.

Definition uuidIndexRule (program : node) : list Diagnostic :=
  lintWith CallExpression_handler program.

(** *** Vocabulary for the statements about index builders *)

(** The call's first argument is a literal, of whatever kind. *)
Definition hasLiteralName (call : node) : bool :=
  match call with
  | CallExpression _ (Literal _ :: _) => true
  | _ => false
  end.

(** None of the segments is an [.on(...)]. *)
Definition noOnSegment (segs : list segment) : bool :=
  forallb (fun sg : segment => negb (String.eqb (fst sg) "on")) segs.

(** The two shapes of the builder of a table's indexes: a function whose
    body is the object literal, or a block whose first [return] returns
    it. *)
Inductive BuilderReturns : node -> list node -> Prop :=
| arrow_literal params props :
    BuilderReturns (ArrowFunctionExpression params (ObjectExpression props))
      props
| arrow_block params before props after :
    forallb (fun stmt => negb (isReturnStatement stmt)) before = true ->
    BuilderReturns
      (ArrowFunctionExpression params
         (BlockStatement
            (before ++ ReturnStatement (Some (ObjectExpression props))
                    :: after)))
      props
| function_block params before props after :
    forallb (fun stmt => negb (isReturnStatement stmt)) before = true ->
    BuilderReturns
      (FunctionExpression params
         (BlockStatement
            (before ++ ReturnStatement (Some (ObjectExpression props))
                    :: after)))
      props.

End EnforceUuidIndexes.

(** ** require-rls-enabled *)

Module RequireRLS.

Import Regex.

Record Options : Type := {
  sensitiveTables : option (list string);
  sensitivePatterns : option (list string)
}.

Definition defaultPatterns : list string :=
  ["user"; "account"; "profile"; "payment"; "order"; "invoice"; "medical";
   "health"; "personal"; "private"; "auth"; "session"; "token"].

Definition sensitiveTablesOf (options : Options) : list string :=
  match sensitiveTables options with Some ts => ts | None => [] end.

Definition sensitivePatternsOf (options : Options) : list string :=
  match sensitivePatterns options with Some ps => ps | None => defaultPatterns end.

Definition isSensitiveTable (options : Options) (tableName : string) : bool :=
  let lowerName := Js.toLowerCase tableName in
  if Js.arrayIncludes (sensitiveTablesOf options) tableName then true
  else existsb (fun pattern => Js.includes lowerName (Js.toLowerCase pattern))
         (sensitivePatternsOf options).

(** [Map.set]: a key already present keeps its place and takes the new
    value; a new key goes last. *)
Fixpoint mapSet (k : string) (v : node) (mp : list (string * node))
  : list (string * node) :=
  match mp with
  | [] => [(k, v)]
  | (k', v') :: mp' =>
      if String.eqb k k' then (k, v) :: mp' else (k', v') :: mapSet k v mp'
  end.

(** What the rule has collected so far. *)
Record State : Type := {
  tablesFound : list (string * node);
  tablesWithRLS : gset string;
  tablesWithPolicies : gset string
}.

Definition initial : State :=
  {| tablesFound := []; tablesWithRLS := ∅; tablesWithPolicies := ∅ |}.

(** The class of the two quote characters, double (34) and single (39). *)
Definition quoteChar (c : ascii) : bool :=
  (Js.code c =? 34)%N || (Js.code c =? 39)%N.

Definition ws : regex := Plus (Class space).

(** [/ALTER\s+TABLE\s+[quote]?(\w+)[quote]?\s+ENABLE\s+ROW\s+LEVEL\s+SECURITY/i] *)
Definition rlsPattern : regex :=
  Seq (Lit "ALTER") (Seq ws (Seq (Lit "TABLE") (Seq ws
  (Seq (Opt (Class quoteChar)) (Seq (Group 1 (Plus (Class word)))
  (Seq (Opt (Class quoteChar)) (Seq ws (Seq (Lit "ENABLE") (Seq ws
  (Seq (Lit "ROW") (Seq ws (Seq (Lit "LEVEL") (Seq ws
  (Lit "SECURITY")))))))))))))).

(** [/CREATE\s+POLICY\s+.*?\s+ON\s+[quote]?(\w+)[quote]?/i] *)
Definition policyPattern : regex :=
  Seq (Lit "CREATE") (Seq ws (Seq (Lit "POLICY") (Seq ws
  (Seq (Star false (Class dot)) (Seq ws (Seq (Lit "ON") (Seq ws
  (Seq (Opt (Class quoteChar)) (Seq (Group 1 (Plus (Class word)))
  (Opt (Class quoteChar))))))))))).

(** The table a statement names, when the pattern matches and its group
    is not empty. *)
Definition capturedTable (pattern : regex) (sqlContent : string)
  : option string :=
  match exec true pattern sqlContent with
  | Some cs =>
      match capture 1 cs with
      | Some name => if Js.truthy name then Some name else None
      | None => None
      end
  | None => None
  end.

Definition addTo (found : option string) (s : gset string) : gset string :=
  match found with Some name => {[ name ]} ∪ s | None => s end.

Definition trackTable (n : node) (st : State) : State :=
  if isTableCall n then
    match n with
    | CallExpression _ (Literal (LString tableName) :: _) =>
        {| tablesFound := mapSet tableName n (tablesFound st);
           tablesWithRLS := tablesWithRLS st;
           tablesWithPolicies := tablesWithPolicies st |}
    | _ => st
    end
  else st.

Definition trackSql (n : node) (st : State) : State :=
  match n with
  | CallExpression (Identifier name) (TemplateLiteral quasis _ :: _) =>
      if String.eqb name "sql" then
        let sqlContent := Js.join quasis in
        {| tablesFound := tablesFound st;
           tablesWithRLS :=
             addTo (capturedTable rlsPattern sqlContent) (tablesWithRLS st);
           tablesWithPolicies :=
             addTo (capturedTable policyPattern sqlContent)
               (tablesWithPolicies st) |}
      else st
  | _ => st
  end.

Definition CallExpression_handler (n : node) (st : State) : State :=
  match n with
  | CallExpression _ _ => trackSql n (trackTable n st)
  | _ => st
  end.

(** The forward pass over the unit. *)
Definition collect (program : node) : State :=
  fold_left (fun st (v : visit) => CallExpression_handler (fst v) st)
    (traverse [] program) initial.

Definition missingRLS (n : node) (table : string) : Diagnostic :=
  report n "missingRLS" [("table", table)].

Definition missingPolicy (n : node) (table : string) : Diagnostic :=
  report n "missingPolicy" [("table", table)].

(** The body of the [forEach] of [Program:exit]. *)
Definition checkTable (options : Options) (st : State)
  (entry : string * node) : list Diagnostic :=
  let (tableName, n) := entry in
  if isSensitiveTable options tableName then
    if negb (bool_decide (tableName ∈ tablesWithRLS st))
    then [missingRLS n tableName]
    else if negb (bool_decide (tableName ∈ tablesWithPolicies st))
    then [missingPolicy n tableName]
    else []
  else [].

Definition Program_exit (options : Options) (st : State) : list Diagnostic :=
  flat_map (checkTable options st) (tablesFound st).

Definition requireRLSRule (options : Options) (program : node)
  : list Diagnostic :=
  Program_exit options (collect program).

(** *** Vocabulary for the statements about units *)

(** The name a node declares, when it is a table declaration with a
    literal name. *)
Definition declaredName (n : node) : option string :=
  if isTableCall n then
    match n with
    | CallExpression _ (Literal (LString tableName) :: _) => Some tableName
    | _ => None
    end
  else None.

(** The text of a raw statement [sql(`...`)]. *)
Definition rawSql (n : node) : option string :=
  match n with
  | CallExpression (Identifier name) (TemplateLiteral quasis _ :: _) =>
      if String.eqb name "sql" then Some (Js.join quasis) else None
  | _ => None
  end.

(** The table a node enables row security on, or creates a policy on. *)
Definition enabledBy (n : node) : option string :=
  match rawSql n with
  | Some sqlContent => capturedTable rlsPattern sqlContent
  | None => None
  end.

Definition policedBy (n : node) : option string :=
  match rawSql n with
  | Some sqlContent => capturedTable policyPattern sqlContent
  | None => None
  end.

(** The table declarations among some nodes, in order. *)
Definition declarations (ns : list node) : list (string * node) :=
  flat_map (fun n => match declaredName n with
                     | Some t => [(t, n)]
                     | None => []
                     end) ns.

Definition setOf (found : option string) : gset string :=
  match found with Some name => {[ name ]} | None => ∅ end.

Definition enabled (ns : list node) : gset string :=
  ⋃ (map (fun n => setOf (enabledBy n)) ns).

Definition policed (ns : list node) : gset string :=
  ⋃ (map (fun n => setOf (policedBy n)) ns).

(** A subtree that declares no table. *)
Definition declaresNoTable (n : node) : bool :=
  forallb (fun m => match declaredName m with Some _ => false | None => true end)
    (nodes n).

(** The pass over a list of nodes. *)
Definition pass (ns : list node) (st : State) : State :=
  fold_left (fun st n => CallExpression_handler n st) ns st.

(** A run of [Map.set]. *)
Definition insertAll (entries m : list (string * node)) : list (string * node) :=
  fold_left (fun m e => mapSet (fst e) (snd e) m) entries m.

(** The diagnostics that speak of one table. *)
Definition aboutTable (t : string) (d : Diagnostic) : bool :=
  bool_decide (data d = [("table", t)]).

End RequireRLS.

(** ** enforce-snake-case-naming *)

Module SnakeCase.

Import Regex.

Definition lowerAlnum (c : ascii) : bool :=
  Js.isLower c || Js.isDigit c || (Js.code c =? 95)%N.

(** [/^[a-z][a-z0-9_]*$/] *)
Definition snakePattern : regex :=
  Seq Bol (Seq (Class Js.isLower) (Seq (Star true (Class lowerAlnum)) Eol)).

Definition isValidSnakeCase (name : string) : bool :=
  test false snakePattern name.

Definition useSnakeCase (n : node) (name : string) : Diagnostic :=
  report n "useSnakeCase" [("name", name)].

Definition allowedCamelCase : list string := ["createdAt"; "updatedAt"].

Definition checkTableName (args : list node) : list Diagnostic :=
  match arg 0 args with
  | Some (Literal (LString tableName) as tableNameArg) =>
      if negb (isValidSnakeCase tableName)
      then [useSnakeCase tableNameArg tableName] else []
  | _ => []
  end.

(** The body of the [forEach] over the column properties. *)
Definition checkColumn (prop : node) : list Diagnostic :=
  match prop with
  | Property (Identifier columnName as key) _ =>
      if negb (isValidSnakeCase columnName)
         && negb (Js.arrayIncludes allowedCamelCase columnName)
      then [useSnakeCase key columnName] else []
  | _ => []
  end.

Definition checkColumns (args : list node) : list Diagnostic :=
  match arg 1 args with
  | Some (ObjectExpression props) => flat_map checkColumn props
  | _ => []
  end.

Definition CallExpression_handler (n : node) (anc : list node)
  : list Diagnostic :=
  match n with
  | CallExpression _ args =>
      if isTableCall n then checkTableName args ++ checkColumns args else []
  | _ => []
  end.

Definition snakeCaseRule (program : node) : list Diagnostic :=
  lintWith CallExpression_handler program.

(** *** Vocabulary for the statements about names *)

Fixpoint allOf (p : ascii -> bool) (s : string) : bool :=
  match s with
  | EmptyString => true
  | String c s' => p c && allOf p s'
  end.

(** A segment: a lower-case letter, then lower-case letters, digits and
    underscores. *)
Definition isSegment (s : string) : bool :=
  match s with
  | String c rest => Js.isLower c && allOf lowerAlnum rest
  | EmptyString => false
  end.

End SnakeCase.

(** ** enforce-index-naming *)

Module IndexNaming.

Import Regex.

Definition segmentRe : regex :=
  Seq (Class Js.isLower) (Star true (Class SnakeCase.lowerAlnum)).

Definition prefixRe : regex := Alt (Lit "idx") (Alt (Lit "uq") (Lit "uk")).

(** The group [(_SEG)] and what follows the first underscore,
    [SEG(_SEG)*$]. *)
Definition moreRe : regex := Group 2 (Seq (Chr "_") segmentRe).

Definition tailRe : regex := Seq segmentRe (Seq (Star true moreRe) Eol).

(** The pattern [^(idx|uq|uk)_SEG(_SEG)*$] with [SEG = [a-z][a-z0-9_]*]. *)
Definition validPattern : regex :=
  Seq Bol (Seq (Group 1 prefixRe) (Seq (Chr "_") tailRe)).

Definition invalidIndexName (n : node) (name : string) : Diagnostic :=
  report n "invalidIndexName" [("name", name)].

Definition isIndexCallee (name : string) : bool :=
  String.eqb name "index" || String.eqb name "uniqueIndex"
  || String.eqb name "unique".

(** [currentTableName], [null] until a table with a literal name is met. *)
Abbreviation State := (option string).

Definition trackTableName (n : node) (currentTableName : State) : State :=
  if isTableCall n then
    match n with
    | CallExpression _ (Literal (LString tableName) :: _) => Some tableName
    | _ => currentTableName
    end
  else currentTableName.

Definition expectedPrefix (callee tableName : string) : string :=
  let prefix := if String.eqb callee "index" then "idx" else "uq" in
  String.append prefix (String.append "_" (String.append tableName "_")).

Definition checkIndexName (n : node) (currentTableName : State)
  : list Diagnostic :=
  match n with
  | CallExpression (Identifier callee) args =>
      if isIndexCallee callee then
        match arg 0 args with
        | Some (Literal (LString indexName) as indexNameArg) =>
            if negb (test false validPattern indexName)
            then [invalidIndexName indexNameArg indexName]
            else
              match currentTableName with
              | Some tableName =>
                  if Js.truthy tableName then
                    if negb (Js.startsWith indexName
                               (expectedPrefix callee tableName))
                    then [invalidIndexName indexNameArg indexName]
                    else []
                  else []
              | None => []
              end
        | _ => []
        end
      else []
  | _ => []
  end.

Definition CallExpression_handler (n : node)
  (acc : State * list Diagnostic) : State * list Diagnostic :=
  let st := trackTableName n (fst acc) in
  (st, snd acc ++ checkIndexName n st).

Definition run (program : node) : State * list Diagnostic :=
  fold_left (fun acc (v : visit) => CallExpression_handler (fst v) acc)
    (traverse [] program) (None, []).

Definition indexNamingRule (program : node) : list Diagnostic :=
  snd (run program).

(** *** Vocabulary for the statements about names *)

(** [segment(_segment)*] *)
Inductive Segments : string -> Prop :=
| one_segment s : SnakeCase.isSegment s = true -> Segments s
| more_segments s rest :
    SnakeCase.isSegment s = true -> Segments rest ->
    Segments (String.append s (String "_" rest)).

(** The rule's pass over a list of nodes, and the table name it knows
    after them. *)
Definition pass (ns : list node) (acc : State * list Diagnostic)
  : State * list Diagnostic :=
  fold_left (fun acc n => CallExpression_handler n acc) ns acc.


(** The generic shape of an index name: [idx], [uq] or [uk], an
    underscore, and segments joined by underscores. *)
Definition GenericShape (name : string) : Prop :=
  exists prefix rest,
    In prefix ["idx"; "uq"; "uk"] /\
    name = String.append prefix (String "_" rest) /\
    Segments rest.

End IndexNaming.

(** ** require-timestamp-columns *)

Module TimestampColumns.

Record Options : Type := {
  checkTables : option (list string);
  ignoreTables : option (list string)
}.

Definition ignoreTablesOf (options : Options) : list string :=
  match ignoreTables options with Some ts => ts | None => [] end.

Definition missingTimestamps (n : node) (tableName : string) : Diagnostic :=
  report n "missingTimestamps" [("tableName", tableName)].

(** The name of a property's key, when it is an identifier or a string. *)
Definition keyName (prop : node) : option string :=
  match prop with
  | Property (Identifier name) _ => Some name
  | Property (Literal (LString value)) _ => Some value
  | _ => None
  end.

Definition columnNamesOf (props : list node) : list string :=
  flat_map (fun prop => match keyName prop with
                        | Some name => [name]
                        | None => []
                        end) props.

Definition isCreated (name : string) : bool :=
  String.eqb name "created_at" || String.eqb name "createdAt".

Definition isUpdated (name : string) : bool :=
  String.eqb name "updated_at" || String.eqb name "updatedAt".

Definition CallExpression_handler (options : Options) (n : node)
  (anc : list node) : list Diagnostic :=
  match n with
  | CallExpression _ args =>
      if isTableCall n then
        match arg 0 args with
        | Some (Literal (LString tableName)) =>
            if Js.arrayIncludes (ignoreTablesOf options) tableName then []
            else if match checkTables options with
                    | Some ts => negb (Js.arrayIncludes ts tableName)
                    | None => false
                    end then []
            else
              match arg 1 args with
              | Some (ObjectExpression props) =>
                  let columnNames := columnNamesOf props in
                  let hasCreatedAt := existsb isCreated columnNames in
                  let hasUpdatedAt := existsb isUpdated columnNames in
                  if negb hasCreatedAt || negb hasUpdatedAt
                  then [missingTimestamps n tableName] else []
              | _ => []
              end
        | _ => []
        end
      else []
  | _ => []
  end.

Definition timestampColumnsRule (options : Options) (program : node)
  : list Diagnostic :=
  lintWith (CallExpression_handler options) program.

(** *** Vocabulary for the statements about tables *)


(** What the rule reports inside one subtree. *)
Definition diagnosticsOf (options : Options) (n : node) : list Diagnostic :=
  flat_map (fun m => CallExpression_handler options m []) (nodes n).

End TimestampColumns.

(** ** Units used as concrete inputs *)

Module Fixtures.

Definition db : node := Identifier "db".

Definition on (a b : string) : node :=
  CallExpression (Identifier "eq")
    [MemberExpression (Identifier a) (Identifier "id");
     MemberExpression (Identifier b) (Identifier "id")].

(** [db.select().from(orders).leftJoin(..).leftJoin(..).innerJoin(..)
       .rightJoin(..).fullJoin(..)]: five join segments. *)
Definition fiveJoinSegments : list segment :=
  [ ("select", []);
    ("from", [Identifier "orders"]);
    ("leftJoin", [Identifier "users"; on "orders" "users"]);
    ("leftJoin", [Identifier "products"; on "orders" "products"]);
    ("innerJoin", [Identifier "stores"; on "orders" "stores"]);
    ("rightJoin", [Identifier "regions"; on "stores" "regions"]);
    ("fullJoin", [Identifier "promotions"; on "orders" "promotions"]) ].

Definition fiveJoins : node := chain db fiveJoinSegments.


Definition defaultJoinOptions : LimitJoinComplexity.Options :=
  {| LimitJoinComplexity.maxJoins := None |}.

(** [config.serviceRole], below a comment that speaks of a migration. *)
Definition serviceRoleAccess : node :=
  MemberExpression (Identifier "config") (Identifier "serviceRole").

Definition serviceRoleUnit : node :=
  Program [ExpressionStatement serviceRoleAccess].

Definition migrationComment : string :=
  " Data MIGRATION: one-off backfill of the new column".

Definition commented : PreventRLSBypass.SourceCode :=
  {| PreventRLSBypass.getCommentsBefore := fun _ => [migrationComment] |}.

Definition uncommented : PreventRLSBypass.SourceCode :=
  {| PreventRLSBypass.getCommentsBefore := fun _ => [] |}.

(** [db.rls().bypass()] *)
Definition rlsBypassUnit : node :=
  Program [ExpressionStatement (chain db [("rls", []); ("bypass", [])])].

(** [db.select().rightJoin(users, eq(..))] and its siblings. *)
Definition selectThen (verb : string) : node :=
  chain db [("select", []);
            (verb, [Identifier "users"; on "orders" "users"])].

Definition selectUnit (verb : string) : node :=
  Program [ExpressionStatement (selectThen verb)].

(** [pgTable(name, { key: ctor(declared) })] *)
Definition column (key ctor : string) (args : list node) : node :=
  Property (Identifier key) (CallExpression (Identifier ctor) args).

Definition table (name : string) (columns : list node) : node :=
  CallExpression (Identifier "pgTable")
    [Literal (LString name); ObjectExpression columns].

Definition str (s : string) : node := Literal (LString s).

Definition tableUnit (name : string) (columns : list node) : node :=
  Program [ExpressionStatement (table name columns)].

(** The [posts] table of the two-name scenario: [userId: uuid('user_id')],
    with and without the index [idx: index('x').on(table.userId)]. *)
Definition postsColumns : list node := [column "userId" "uuid" [str "user_id"]].

Definition postsIndexes : list node :=
  [Property (Identifier "idx")
     (chain (CallExpression (Identifier "index") [str "x"])
        [("on", [MemberExpression (Identifier "table") (Identifier "userId")])])].

Definition postsBuilder : node :=
  ArrowFunctionExpression [Identifier "table"] (ObjectExpression postsIndexes).

Definition postsIndexed : node :=
  CallExpression (Identifier "pgTable")
    [str "posts"; ObjectExpression postsColumns; postsBuilder].

(** The [users] table and the statement that enables row security on it. *)
Definition usersDecl : node :=
  ExpressionStatement
    (table "users" [column "id" "uuid" []; column "email" "text" []]).

Definition rawStatement (text : string) : node :=
  ExpressionStatement
    (CallExpression (Identifier "sql") [TemplateLiteral [text] []]).

Definition enableUsers : node :=
  rawStatement "ALTER TABLE users ENABLE ROW LEVEL SECURITY".

Definition defaultRlsOptions : RequireRLS.Options :=
  {| RequireRLS.sensitiveTables := None;
     RequireRLS.sensitivePatterns := None |}.

Definition defaultTimestampOptions : TimestampColumns.Options :=
  {| TimestampColumns.checkTables := None;
     TimestampColumns.ignoreTables := None |}.

(** [pgTable('logs')]: a table declaration without its columns. *)
Definition bareTable : node :=
  CallExpression (Identifier "pgTable") [str "logs"].

(** A [users] table with three indexes: one well named, one that lacks
    the table's name, one of the wrong shape. *)
Definition indexOf (key name : string) : node :=
  Property (Identifier key)
    (chain (CallExpression (Identifier "index") [str name])
       [("on", [MemberExpression (Identifier "t") (Identifier "email")])]).

Definition usersWithIndexes : node :=
  Program [ExpressionStatement
    (CallExpression (Identifier "pgTable")
       [str "users";
        ObjectExpression [column "email" "text" [str "email"]];
        ArrowFunctionExpression [Identifier "t"]
          (ObjectExpression
             [indexOf "a" "idx_users_email";
              indexOf "b" "idx_email";
              indexOf "c" "users_email_idx"])])].

End Fixtures.

(** ** Further vocabulary: chains and their ancestors *)

Module ChainShapes.

(** The ancestors of the receiver [inner] of a chain [chain inner segs]
    that sits below [top], nearest first: the member access and the call
    of each segment in turn. *)
Fixpoint chainAncestors (inner : node) (segs : list segment)
  (top : list node) : list node :=
  match segs with
  | [] => top
  | sg :: rest =>
      MemberExpression inner (Identifier (fst sg))
      :: callOn inner sg
      :: chainAncestors (callOn inner sg) rest top
  end.

(** A list of visits that holds, with each node, the visits of the
    subtree below it. *)
Definition closed (l : list visit) : Prop :=
  forall x a, In (x, a) l -> incl (traverse a x) l.

(** The [data] of the join diagnostic for a count. *)
Definition joinData (max count : nat) : list (string * string) :=
  [("count", Js.stringOfNat count); ("max", Js.stringOfNat max)].

Definition isQueryName (sg : segment) : bool :=
  Js.arrayIncludes NoSelectStar.queryMethods (fst sg).

End ChainShapes.

(** ** Further vocabulary: column definitions *)

Module ColumnShapes.

(** A column definition [ctor(args).m1(..)...mk(..)]. *)
Definition columnValue (ctor : string) (args : list node)
  (modifiers : list segment) : node :=
  chain (CallExpression (Identifier ctor) args) modifiers.

Definition isIndexModifier (sg : segment) : bool :=
  Js.arrayIncludes ["primaryKey"; "unique"] (fst sg).

(** A declared name that looks like a UUID column: in lower case it
    contains [uuid], ends with [_id] or is [id]. *)
Definition uuidLikeName (name : string) : Prop :=
  let lower := Js.toLowerCase name in
  (exists a b, lower = String.append a (String.append "uuid" b))
  \/ (exists a, lower = String.append a "_id")
  \/ lower = "id".

(** The receiver chain of a value reaches an [.on(...)] call that lists
    [x.p] for some [x]. *)
Inductive OnArgument : node -> string -> Prop :=
| on_here object args t p :
    In (MemberExpression t (Identifier p)) args ->
    OnArgument (CallExpression (MemberExpression object (Identifier "on")) args) p
| on_below object property args p :
    OnArgument object p ->
    OnArgument (CallExpression (MemberExpression object property) args) p.

End ColumnShapes.

(** ** Further vocabulary: index builders *)

Module BuilderShapes.

(** The object a builder body hands back: the body itself, or what the
    first [return] of a block returns. *)
Inductive ReturnsObject : node -> list node -> Prop :=
| returns_literal props :
    ReturnsObject (ObjectExpression props) props
| returns_block before props after :
    forallb (fun stmt => negb (EnforceUuidIndexes.isReturnStatement stmt)) before
      = true ->
    ReturnsObject
      (BlockStatement
         (before ++ ReturnStatement (Some (ObjectExpression props)) :: after))
      props.

Definition isBuilder (f : node) (body : node) : Prop :=
  (exists params, f = ArrowFunctionExpression params body)
  \/ (exists params, f = FunctionExpression params body).

End BuilderShapes.

(** ** Further vocabulary: raw statements *)

Module RlsStatements.

(** [sql(`text`)], a call, and [sql`text`], a tagged template. *)
Definition sqlCall (text : string) : node :=
  CallExpression (Identifier "sql") [TemplateLiteral [text] []].

Definition sqlTagged (text : string) : node :=
  TaggedTemplateExpression (Identifier "sql") (TemplateLiteral [text] []).

(** The two statement forms around a tagged template: the bare expression
    statement and [await db.execute(...)]. *)
Definition bareStatement (text : string) : node :=
  ExpressionStatement (sqlTagged text).

Definition executedStatement (text : string) : node :=
  ExpressionStatement
    (AwaitExpression
       (callOn (Identifier "db") ("execute", [sqlTagged text]))).

(** A name made of word characters, at least one. *)
Definition isWordName (s : string) : bool :=
  Js.truthy s && SnakeCase.allOf Regex.word s.

(** The text stops, or goes on with something that is not a word
    character. *)
Definition endsWord (post : string) : bool :=
  match post with
  | EmptyString => true
  | String d _ => negb (Regex.word d)
  end.

Definition enableText (t post : string) : string :=
  String.append "ALTER TABLE "
    (String.append t (String.append " ENABLE ROW LEVEL SECURITY" post)).

Definition policyText (p t post : string) : string :=
  String.append "CREATE POLICY "
    (String.append p (String.append " ON " (String.append t post))).

End RlsStatements.

(** ** prefer-uuid-primary-key

    The rule reports a [.primaryKey()] call applied to a [serial(...)] or
    [integer(...)] call and suggests a replacement text for it. *)

Module PreferUuidPrimaryKey.

(** A suggestion: its message and its fix, [fixer.replaceText(node, text)]. *)
Record Suggestion : Type := suggestion {
  s_messageId : string;
  s_node : node;
  s_text : string
}.

(** A finding with suggestions, as passed to [context.report]. *)
Record Finding : Type := finding {
  f_node : node;
  f_messageId : string;
  suggest : list Suggestion
}.

Definition isSerial (name : string) : bool :=
  String.eqb name "serial" || String.eqb name "integer".

Definition columnNameOf (args : list node) : string :=
  match arg 0 args with
  | Some (Literal (LString value)) => value
  | _ => "id"
  end.

(** The template [uuid('${columnName}').defaultRandom().primaryKey()]. *)
Definition replacement (columnName : string) : string :=
  String.append "uuid('"
    (String.append columnName "').defaultRandom().primaryKey()").

Definition useUUID (n : node) (columnName : string) : Finding :=
  {| f_node := n;
     f_messageId := "useUUID";
     suggest := [ {| s_messageId := "useUUID";
                     s_node := n;
                     s_text := replacement columnName |} ] |}.

Definition CallExpression_handler (n : node) : list Finding :=
  match n with
  | CallExpression
      (MemberExpression (CallExpression (Identifier ctor) args)
         (Identifier property)) _ =>
      if String.eqb property "primaryKey" && isSerial ctor
      then [useUUID n (columnNameOf args)] else []
  | _ => []
  end.

Definition preferUuidRule (program : node) : list Finding :=
  flat_map (fun v : visit => CallExpression_handler (fst v))
    (traverse [] program).

(** *** Vocabulary for the statements about columns *)

(** What the rule reports inside one subtree. *)
Definition findingsIn (n : node) : list Finding :=
  flat_map CallExpression_handler (nodes n).

(** A receiver that is not a plain constructor call. *)
Definition notConstructorCall (n : node) : bool :=
  match n with
  | CallExpression (Identifier _) _ => false
  | _ => true
  end.

End PreferUuidPrimaryKey.

(* ===================================================================== *)
(** * Part II: properties *)
(* ===================================================================== *)

(** ** The tree and its traversal *)

Lemma map_fst_flat_map (l : list node) :
  Forall (fun x => forall a a', map fst (traverse a x) = map fst (traverse a' x)) l ->
  forall a a',
    map fst (flat_map (traverse a) l) = map fst (flat_map (traverse a') l).
Proof.
  induction 1 as [|x l Hx _ IH]; intros a a'; simpl; [reflexivity|].
  rewrite !map_app, (Hx a a'), (IH a a'). reflexivity.
Qed.

(** The nodes visited, and their order, do not depend on what lies above
    the subtree. *)
Lemma traverse_nodes (n : node) :
  forall anc anc', map fst (traverse anc n) = map fst (traverse anc' n).
Proof.
  induction n using node_ind'; intros anc anc'; simpl; f_equal;
    rewrite ?map_app;
    repeat match goal with |- _ ++ _ = _ ++ _ => f_equal end;
    auto using map_fst_flat_map.
Qed.

Lemma flat_map_on_fst {B} (h : node -> list B) (vs : list visit) :
  flat_map (fun v : visit => h (fst v)) vs = flat_map h (map fst vs).
Proof.
  induction vs as [|v vs IH]; simpl; [reflexivity|]. rewrite IH. reflexivity.
Qed.

Lemma forallb_on_fst (f : node -> bool) (vs : list visit) :
  forallb (fun v : visit => f (fst v)) vs = forallb f (map fst vs).
Proof.
  induction vs as [|v vs IH]; simpl; [reflexivity|]. rewrite IH. reflexivity.
Qed.

(** A handler that looks at the node alone reports the same on a subtree
    wherever the subtree sits. *)
Lemma flat_map_handler_nodes {B} (h : node -> list B) (n : node) anc anc' :
  flat_map (fun v : visit => h (fst v)) (traverse anc n)
  = flat_map (fun v : visit => h (fst v)) (traverse anc' n).
Proof.
  rewrite !flat_map_on_fst, (traverse_nodes n anc anc'). reflexivity.
Qed.

Lemma flat_map_flat_map {A B C} (h : B -> list C) (g : A -> list B) (l : list A) :
  flat_map h (flat_map g l) = flat_map (fun x => flat_map h (g x)) l.
Proof.
  induction l as [|x l IH]; simpl; [reflexivity|].
  rewrite flat_map_app, IH. reflexivity.
Qed.

Lemma nodes_under (anc : list node) (n : node) :
  map fst (traverse anc n) = nodes n.
Proof. apply traverse_nodes. Qed.

Lemma nodes_flat (anc : list node) (l : list node) :
  map fst (flat_map (traverse anc) l) = flat_map nodes l.
Proof.
  induction l as [|x l IH]; [reflexivity|].
  cbn [flat_map]. rewrite map_app, IH, nodes_under. reflexivity.
Qed.

Lemma nodes_program (body : list node) :
  nodes (Program body) = Program body :: flat_map nodes body.
Proof. unfold nodes at 1. cbn [traverse map fst]. rewrite nodes_flat. reflexivity. Qed.

Lemma nodes_statement (e : node) :
  nodes (ExpressionStatement e) = ExpressionStatement e :: nodes e.
Proof. unfold nodes at 1. cbn [traverse map fst]. rewrite nodes_under. reflexivity. Qed.

Lemma nodes_call (c : node) (args : list node) :
  nodes (CallExpression c args)
  = CallExpression c args :: nodes c ++ flat_map nodes args.
Proof.
  unfold nodes at 1. cbn [traverse map fst].
  rewrite map_app, nodes_under, nodes_flat. reflexivity.
Qed.

Lemma chain_snoc (root : node) (segs : list segment) (sg : segment) :
  chain root (segs ++ [sg]) = callOn (chain root segs) sg.
Proof. unfold chain. rewrite fold_left_app. reflexivity. Qed.

(** ** limit-join-complexity: the count along a chain *)

Module JoinChains.

Import LimitJoinComplexity.

Section Chains.

Variable options : Options.

Lemma joinFree_lint (n : node) (anc : list node) :
  joinFree n = true -> lintUnder options anc n = [].
Proof.
  unfold joinFree, lintUnder. intros Hfree.
  assert (Hall : forallb (fun v : visit => negb (isJoinCall (fst v)))
                   (traverse anc n) = true).
  { rewrite (forallb_on_fst (fun m => negb (isJoinCall m))),
      (traverse_nodes n anc []),
      <- (forallb_on_fst (fun m => negb (isJoinCall m))).
    exact Hfree. }
  clear Hfree.
  induction (traverse anc n) as [|[m a] vs IH]; simpl in *; [reflexivity|].
  apply andb_prop in Hall as [Hm Hvs].
  unfold CallExpression_handler at 1. simpl.
  apply negb_true_iff in Hm. rewrite Hm. simpl. auto.
Qed.

Lemma joinFree_args (args : list node) (anc : list node) :
  forallb joinFree args = true ->
  flat_map (lintUnder options anc) args = [].
Proof.
  induction args as [|a args IH]; simpl; [reflexivity|].
  intros H. apply andb_prop in H as [Ha Hargs].
  rewrite (joinFree_lint a anc Ha), IH by assumption. reflexivity.
Qed.


Lemma walk_S_bounded (n : nat) :
  forall anc cur c, List.length anc <= n ->
    walk cur anc (S c) = S (walk cur anc c).
Proof.
  induction n as [|n IH]; intros anc cur c Hlen.
  - destruct anc; [|simpl in Hlen; lia].
    destruct cur; simpl; try reflexivity;
      match goal with |- context [if ?b then _ else _] => destruct b end;
      reflexivity.
  - destruct anc as [|x anc].
    { destruct cur; simpl; try reflexivity;
      match goal with |- context [if ?b then _ else _] => destruct b end;
      reflexivity. }
    simpl in Hlen.
    destruct cur; try reflexivity.
    + destruct x; try reflexivity. cbn [walk isJoinCall]. apply IH. lia.
    + cbn [walk].
      destruct (isJoinCall (CallExpression cur arguments));
        destruct x; try (apply IH; lia);
        destruct anc as [|y anc]; try (apply IH; simpl; lia);
        destruct y; apply IH; simpl in *; lia.
Qed.

Lemma walk_S cur anc c : walk cur anc (S c) = S (walk cur anc c).
Proof. apply (walk_S_bounded (List.length anc)). lia. Qed.

(** The walk stops at a node that is neither a call nor a member access. *)
Lemma walk_stop (cur : node) (anc : list node) (c : nat) :
  topLevel (cur :: anc) = true -> walk cur anc c = c.
Proof. destruct cur, anc; simpl; intros H; try discriminate H; reflexivity. Qed.

(** One more segment below: the count at the receiver is the count at the
    call, plus one when the call is a join. *)
Lemma countJoins_receiver (o p c : node) (args anc : list node) :
  inChain anc = true ->
  countJoins (MemberExpression o p :: CallExpression c args :: anc)
  = if isJoinCall (CallExpression c args)
    then S (countJoins anc) else countJoins anc.
Proof.
  intros Hanc. unfold countJoins.
  set (j := isJoinCall (CallExpression c args)).
  assert (Hstep : forall a, walk (MemberExpression o p) (CallExpression c args :: a) 1
                 = walk (CallExpression c args) a 1) by reflexivity.
  rewrite Hstep. clear Hstep.
  destruct anc as [|x anc]; [cbn [walk]; fold j; destruct j; reflexivity|].
  destruct (topLevel (x :: anc)) eqn:Htop.
  - rewrite (walk_stop x anc 1 Htop).
    destruct x; try discriminate Htop; cbn [walk]; fold j;
      rewrite walk_stop by exact Htop; destruct j; reflexivity.
  - destruct x; try discriminate Htop; simpl in Hanc; try discriminate Hanc.
    destruct anc as [|y anc]; [discriminate Hanc|].
    destruct y; try discriminate Hanc.
    cbn [walk]. fold j. cbn [isJoinCall].
    destruct j; [apply walk_S | reflexivity].
Qed.

Lemma lintUnder_member (o p : node) (anc : list node) :
  lintUnder options anc (MemberExpression o p)
  = lintUnder options (MemberExpression o p :: anc) o
    ++ lintUnder options (MemberExpression o p :: anc) p.
Proof.
  unfold lintUnder. cbn [traverse]. simpl flat_map at 1.
  rewrite flat_map_app. reflexivity.
Qed.

Lemma lintUnder_call (c : node) (args anc : list node) :
  lintUnder options anc (CallExpression c args)
  = CallExpression_handler options (CallExpression c args) anc
    ++ lintUnder options (CallExpression c args :: anc) c
    ++ flat_map (lintUnder options (CallExpression c args :: anc)) args.
Proof.
  unfold lintUnder. cbn [traverse]. simpl flat_map at 1.
  rewrite flat_map_app, flat_map_flat_map. reflexivity.
Qed.

(** The diagnostics of a chain whose receiver and arguments hold no join
    of their own. *)
Lemma chain_lint (root : node) (rsegs : list segment) :
  joinFree root = true ->
  forallb argsJoinFree rsegs = true ->
  forall anc, inChain anc = true ->
    lintUnder options anc (chain root (rev rsegs))
    = chainDiagnostics options root rsegs (countJoins anc).
Proof.
  intros Hroot. induction rsegs as [|[m args] inner IH]; intros Hargs anc Hanc.
  - simpl. apply joinFree_lint, Hroot.
  - simpl in Hargs. apply andb_prop in Hargs as [Hsg Hinner].
    cbn [chainDiagnostics]. cbn [rev]. rewrite chain_snoc.
    unfold callOn. cbn [fst snd].
    rewrite lintUnder_call, lintUnder_member.
    rewrite (joinFree_args args _ Hsg).
    rewrite (joinFree_lint (Identifier m) _ eq_refl).
    rewrite !app_nil_r.
    rewrite (IH Hinner) by reflexivity.
    rewrite countJoins_receiver by exact Hanc.
    unfold CallExpression_handler. cbn [isJoinCall]. fold (isJoinName m).
    destruct (isJoinName m); cbn [andb]; [|reflexivity].
    destruct (Nat.ltb (maxJoinsOf options) (countJoins anc)); reflexivity.
Qed.



Lemma joinSegments_app (a b : list segment) :
  joinSegments (a ++ b) = joinSegments a + joinSegments b.
Proof. unfold joinSegments. rewrite List.filter_app, List.length_app. reflexivity. Qed.

Lemma joinSegments_rev (a : list segment) :
  joinSegments (rev a) = joinSegments a.
Proof.
  induction a as [|s a IH]; [reflexivity|].
  cbn [rev]. rewrite joinSegments_app, IH. unfold joinSegments. simpl.
  destruct (isJoinName (fst s)); simpl; lia.
Qed.

Lemma topLevel_countJoins (anc : list node) :
  topLevel anc = true -> countJoins anc = 1.
Proof.
  destruct anc as [|x anc]; [reflexivity|]. intros H.
  unfold countJoins. apply walk_stop, H.
Qed.

Lemma topLevel_inChain (anc : list node) :
  topLevel anc = true -> inChain anc = true.
Proof.
  destruct anc as [|x anc]; [reflexivity|].
  destruct x; simpl; intros H; try discriminate H; reflexivity.
Qed.

Lemma forallb_rev {A} (f : A -> bool) (l : list A) :
  forallb f (rev l) = forallb f l.
Proof.
  induction l as [|x l IH]; [reflexivity|].
  cbn [rev]. rewrite forallb_app, IH. simpl. rewrite andb_true_r.
  apply andb_comm.
Qed.


End Chains.

Import Fixtures.


(** Four joins against the default maximum of three: one diagnostic, with
    the count four. *)
Example four_joins_reported_once :
  map data
    (limitJoinComplexityRule defaultJoinOptions
       (Program [ExpressionStatement
                   (chain db (firstn 6 fiveJoinSegments))]))
  = [[("count", "4"); ("max", "3")]].
Proof. vm_compute. reflexivity. Qed.


End JoinChains.

(** ** prevent-rls-bypass: the bypass indicators *)

Module BypassIndicators.

Import PreventRLSBypass Fixtures.

(** C2, the code at the failing input.  The access [config.serviceRole]
    sits below a comment that contains "migration" (in capitals), which the
    justification matcher accepts; the rule reports the access all the
    same, because the indicator branch never consults the matcher.  The
    sibling branch for [.rls().bypass()] does: the same comment silences
    it. *)
Theorem bypass_indicator_ignores_comment :
  hasValidBypassComment commented (serviceRoleAccess, []) = true /\
  preventRLSBypassRule commented serviceRoleUnit
  = [bypassDetected serviceRoleAccess "serviceRole"] /\
  preventRLSBypassRule commented rlsBypassUnit = [] /\
  List.length (preventRLSBypassRule uncommented rlsBypassUnit) = 1.
Proof. repeat split; vm_compute; reflexivity. Qed.

(** Whatever the comments, an indicator access is reported. *)
Lemma bypass_indicator_always_reported
  (sourceCode : SourceCode) (object : node) (name : string) (anc : list node) :
  Js.arrayIncludes bypassIndicators name = true ->
  In (bypassDetected (MemberExpression object (Identifier name)) name)
     (MemberExpression_handler sourceCode
        (MemberExpression object (Identifier name), anc)).
Proof.
  intros Hname. unfold MemberExpression_handler. cbn [fst].
  apply in_or_app. right. rewrite Hname. left. reflexivity.
Qed.

End BypassIndicators.

(** ** no-select-star: the query verbs *)

Module SelectStar.

Import NoSelectStar Fixtures.

(** C4, the code at the failing input.  A bare [.select()] followed only
    by [rightJoin] or only by [fullJoin] is not reported, while the same
    chain with [leftJoin], [innerJoin] or [from] is. *)
Theorem right_and_full_join_not_recognised :
  noSelectStarRule (selectUnit "rightJoin") = [] /\
  noSelectStarRule (selectUnit "fullJoin") = [] /\
  noSelectStarRule (selectUnit "leftJoin")
  = [noSelectStar (chain db [("select", [])])] /\
  noSelectStarRule (selectUnit "innerJoin")
  = [noSelectStar (chain db [("select", [])])] /\
  noSelectStarRule (selectUnit "from")
  = [noSelectStar (chain db [("select", [])])].
Proof. repeat split; vm_compute; reflexivity. Qed.

End SelectStar.

(** ** enforce-snake-case-naming: which name is checked *)

Module SnakeCaseColumns.

Import SnakeCase Fixtures.

(** C7, the code at the failing input.  The column [userId: uuid('user_id')]
    has a declared name in snake_case and is reported, with the property
    key as the name; the column [user_id: uuid('userId')] has a declared
    name in camelCase and is not reported. *)
Theorem column_key_is_checked :
  isValidSnakeCase "user_id" = true /\
  isValidSnakeCase "userId" = false /\
  snakeCaseRule (tableUnit "users" [column "userId" "uuid" [str "user_id"]])
  = [useSnakeCase (Identifier "userId") "userId"] /\
  snakeCaseRule (tableUnit "users" [column "user_id" "uuid" [str "userId"]])
  = [].
Proof. repeat split; vm_compute; reflexivity. Qed.

(** The check of one column never looks at the column's value. *)
Lemma checkColumn_ignores_value (key value value' : node) :
  checkColumn (Property key value) = checkColumn (Property key value').
Proof. destruct key; reflexivity. Qed.

End SnakeCaseColumns.

(** ** enforce-uuid-indexes: the two names of a column *)

Module UuidIndexes.

Import EnforceUuidIndexes Fixtures.

Lemma onArguments_acc (args : list node) (acc : gset string) (p : string) :
  p ∈ fold_left
        (fun acc a =>
           match a with
           | MemberExpression _ (Identifier name) => {[ name ]} ∪ acc
           | _ => acc
           end) args acc
  <-> p ∈ acc \/ exists t, In (MemberExpression t (Identifier p)) args.
Proof.
  revert acc. induction args as [|a args IH]; intros acc; simpl.
  - split; [auto | intros [H|[t []]]; exact H].
  - rewrite IH. split.
    + intros [H|[t H]]; [|right; exists t; right; exact H].
      destruct a; auto. destruct a2; auto.
      apply elem_of_union in H as [H|H]; [|auto].
      apply elem_of_singleton in H. subst. right. eexists. left. reflexivity.
    + intros [H|[t [H|H]]].
      * left. destruct a; auto. destruct a2; auto.
        apply elem_of_union. right. exact H.
      * subst a. left. apply elem_of_union. left.
        apply elem_of_singleton. reflexivity.
      * right. exists t. exact H.
Qed.

Lemma onArguments_In (args : list node) (t : node) (p : string) :
  In (MemberExpression t (Identifier p)) args -> p ∈ onArguments args.
Proof. intros H. apply onArguments_acc. right. exists t. exact H. Qed.

(** The search passes the segments chained after [.on(...)]. *)
Lemma findOn_chain (recv : node) (onArgs : list node) (more : list segment) :
  noOnSegment more = true ->
  findOn (chain (callOn recv ("on", onArgs)) more) = onArguments onArgs.
Proof.
  induction more as [|sg more IH] using rev_ind; intros Hmore.
  - reflexivity.
  - unfold noOnSegment in *. rewrite forallb_app in Hmore.
    apply andb_prop in Hmore as [Hmore Hsg]. simpl in Hsg.
    rewrite andb_true_r in Hsg. apply negb_true_iff in Hsg.
    rewrite chain_snoc. unfold callOn at 1. cbn [findOn].
    rewrite Hsg. apply IH, Hmore.
Qed.

Lemma findOn_call (v : node) (p : string) :
  p ∈ findOn v -> exists c args, v = CallExpression c args.
Proof.
  destruct v; simpl; try set_solver; eauto.
Qed.

Lemma processIndexObject_In (props : list node) (acc : gset string)
  (k v : node) (p : string) :
  In (Property k v) props -> p ∈ findOn v ->
  p ∈ processIndexObject props acc.
Proof.
  unfold processIndexObject. revert acc.
  induction props as [|x props IH]; intros acc Hin Hp; [destruct Hin|].
  destruct Hin as [Hx|Hin]; simpl.
  - subst x. destruct (findOn_call v p Hp) as (c & args & ->).
    clear IH.
    assert (Hacc : p ∈ findOn (CallExpression c args) ∪ acc) by set_solver.
    revert Hacc. generalize (findOn (CallExpression c args) ∪ acc).
    induction props as [|y props IH]; intros acc' Hacc; simpl; [exact Hacc|].
    apply IH. destruct y; auto. destruct y2; auto. set_solver.
  - apply IH; assumption.
Qed.

Lemma find_first_return (before after : list node) (r : option node) :
  forallb (fun stmt => negb (isReturnStatement stmt)) before = true ->
  find isReturnStatement (before ++ ReturnStatement r :: after)
  = Some (ReturnStatement r).
Proof.
  induction before as [|x before IH]; simpl; [reflexivity|].
  intros H. apply andb_prop in H as [Hx Hb].
  apply negb_true_iff in Hx. rewrite Hx. apply IH, Hb.
Qed.

Lemma extract_builder (c tableName columns builder : node)
  (rest props : list node) :
  BuilderReturns builder props ->
  extractIndexedProperties
    (CallExpression c (tableName :: columns :: builder :: rest))
  = processIndexObject props ∅.
Proof.
  intros [ps pr|ps before pr after Hb|ps before pr after Hb];
    cbn [extractIndexedProperties arg nth_error extractFromBody];
    try reflexivity; rewrite (find_first_return _ _ _ Hb); reflexivity.
Qed.

Lemma checkColumn_covered (idx : gset string) (p : string) (value : node) :
  p ∈ idx -> checkColumn idx (Property (Identifier p) value) = [].
Proof.
  intros Hp. unfold checkColumn.
  destruct value; try reflexivity.
  destruct (isUUIDColumn _); [|reflexivity].
  destruct (getColumnName _); [|reflexivity].
  rewrite (bool_decide_eq_true_2 _ Hp). cbn [negb].
  rewrite andb_false_r. reflexivity.
Qed.

Lemma checkColumn_reports (idx : gset string) (prop : node) (d : Diagnostic) :
  In d (checkColumn idx prop) ->
  exists key value declared,
    prop = Property (Identifier key) value /\
    getColumnName (baseCallOf value) = Some declared /\
    d = enforceUUIDIndexes value declared /\
    key ∉ idx.
Proof.
  unfold checkColumn.
  destruct prop; try (intros []).
  destruct prop1; try (intros []).
  destruct prop2; try (intros []).
  destruct (isUUIDColumn _); [|intros []].
  destruct (getColumnName _) as [declared|] eqn:Hname; [|intros []].
  destruct (bool_decide (name ∈ idx)) eqn:Hidx;
    [rewrite andb_false_r; intros []|].
  destruct (_ && _); [|intros []].
  intros [<-|[]].
  exists name, (CallExpression prop2 arguments), declared.
  split; [reflexivity|]. split; [exact Hname|]. split; [reflexivity|].
  apply bool_decide_eq_false in Hidx. exact Hidx.
Qed.

(** C3.  The table-level indexes are matched against the property name of
    a column, not its declared name: a column whose property name is
    listed by the [.on(...)] call of an index of the table's builder is
    never flagged, whatever its declared name; and every column that is
    flagged is named by its declared name, the literal passed to its base
    constructor. *)
Theorem indexes_match_property_names
  (ctor : string) (tableName builder : node)
  (columns rest props anc : list node) :
  let n := CallExpression (Identifier ctor)
             (tableName :: ObjectExpression columns :: builder :: rest) in
  isTableCall n = true ->
  BuilderReturns builder props ->
  (forall (idxKey recv t : node) (onArgs : list node) (more : list segment)
          (p : string),
      In (Property idxKey (chain (callOn recv ("on", onArgs)) more)) props ->
      noOnSegment more = true ->
      In (MemberExpression t (Identifier p)) onArgs ->
      p ∈ extractIndexedProperties n /\
      forall value,
        checkColumn (extractIndexedProperties n)
          (Property (Identifier p) value) = [])
  /\ CallExpression_handler n anc
     = flat_map (checkColumn (extractIndexedProperties n)) columns
  /\ (forall d, In d (CallExpression_handler n anc) ->
        exists key value declared,
          In (Property (Identifier key) value) columns /\
          getColumnName (baseCallOf value) = Some declared /\
          d = enforceUUIDIndexes value declared /\
          key ∉ extractIndexedProperties n).
Proof.
  intros n Htable Hbuilder.
  assert (Hhandler : CallExpression_handler n anc
            = flat_map (checkColumn (extractIndexedProperties n)) columns).
  { unfold CallExpression_handler, n. fold n. rewrite Htable. reflexivity. }
  split; [|split].
  - intros idxKey recv t onArgs more p Hin Hmore Harg.
    assert (Hp : p ∈ extractIndexedProperties n).
    { unfold n. rewrite (extract_builder _ _ _ _ _ _ Hbuilder).
      eapply processIndexObject_In; [exact Hin|].
      rewrite findOn_chain by exact Hmore.
      eapply onArguments_In, Harg. }
    split; [exact Hp|]. intros value. apply checkColumn_covered, Hp.
  - exact Hhandler.
  - intros d Hd. rewrite Hhandler in Hd.
    apply in_flat_map in Hd as (prop & Hprop & Hd).
    destruct (checkColumn_reports _ _ _ Hd) as (key & value & declared & -> & Hname & -> & Hkey).
    exists key, value, declared. auto.
Qed.

Lemma indexes_match_property_names_witness :
  "userId" ∈ extractIndexedProperties postsIndexed /\
  uuidIndexRule (Program [ExpressionStatement postsIndexed]) = [] /\
  uuidIndexRule (tableUnit "posts" postsColumns)
  = [enforceUUIDIndexes (CallExpression (Identifier "uuid") [str "user_id"])
       "user_id"].
Proof.
  destruct (indexes_match_property_names "pgTable" (str "posts") postsBuilder
              postsColumns [] postsIndexes [] eq_refl
              (arrow_literal [Identifier "table"] postsIndexes))
    as (Hcovered & _ & _).
  destruct (Hcovered (Identifier "idx")
              (CallExpression (Identifier "index") [str "x"])
              (Identifier "table")
              [MemberExpression (Identifier "table") (Identifier "userId")]
              [] "userId" (or_introl eq_refl) eq_refl (or_introl eq_refl))
    as [Hin _].
  split; [exact Hin|]. split; vm_compute; reflexivity.
Defined.

End UuidIndexes.

(** ** JavaScript strings *)

Module JsFacts.

Import Js.

Lemma startsWith_spec (s p : string) :
  startsWith s p = true <-> exists b, s = String.append p b.
Proof.
  revert s. induction p as [|c p IH]; intros s; simpl.
  - split; [intros _; exists s; reflexivity | reflexivity].
  - destruct s as [|d s].
    + split; [discriminate | intros [b Hb]; discriminate Hb].
    + rewrite andb_true_iff, IH. split.
      * intros [Hc [b ->]]. apply Ascii.eqb_eq in Hc. subst. eauto.
      * intros [b Hb]. injection Hb as -> ->. split; [apply Ascii.eqb_refl|eauto].
Qed.

(** [includes] finds exactly the substrings. *)
Lemma includes_spec (s p : string) :
  includes s p = true <->
  exists a b, s = String.append a (String.append p b).
Proof.
  induction s as [|d s IH]; simpl.
  - rewrite orb_false_r, startsWith_spec. split.
    + intros [b Hb]. exists EmptyString, b. exact Hb.
    + intros [a [b Hab]]. destruct a; [exists b; exact Hab|discriminate Hab].
  - rewrite orb_true_iff, startsWith_spec, IH. split.
    + intros [[b Hb]|[a [b Hab]]].
      * exists EmptyString, b. exact Hb.
      * exists (String d a), b. simpl. rewrite Hab. reflexivity.
    + intros [a [b Hab]]. destruct a as [|e a]; simpl in Hab.
      * left. exists b. exact Hab.
      * right. injection Hab as -> ->. eauto.
Qed.

Lemma arrayIncludes_spec (xs : list string) (x : string) :
  arrayIncludes xs x = true <-> In x xs.
Proof.
  unfold arrayIncludes. rewrite existsb_exists. split.
  - intros [y [Hy Heq]]. apply String.eqb_eq in Heq. subst. exact Hy.
  - intros Hx. exists x. split; [exact Hx | apply String.eqb_refl].
Qed.

End JsFacts.

(** ** require-rls-enabled: what the forward pass collects *)

Module RlsCollect.

Import RequireRLS.

Lemma state_eq (a b : State) :
  tablesFound a = tablesFound b ->
  tablesWithRLS a = tablesWithRLS b ->
  tablesWithPolicies a = tablesWithPolicies b ->
  a = b.
Proof. destruct a, b; simpl; intros -> -> ->; reflexivity. Qed.

Lemma addTo_setOf (found : option string) (s : gset string) :
  addTo found s = s ∪ setOf found.
Proof. destruct found; simpl; set_solver. Qed.

(** The handler touches the three collections independently. *)
Lemma handler_tables (n : node) (st : State) :
  tablesFound (CallExpression_handler n st)
  = match declaredName n with
    | Some t => mapSet t n (tablesFound st)
    | None => tablesFound st
    end.
Proof.
  unfold CallExpression_handler, declaredName.
  destruct n; try (destruct (isTableCall _); reflexivity).
  assert (Hsql : forall st', tablesFound (trackSql (CallExpression n arguments) st')
                             = tablesFound st').
  { intros st'. unfold trackSql. destruct n; try reflexivity.
    destruct arguments as [|a ?]; try reflexivity.
    destruct a; try reflexivity. destruct (String.eqb _ _); reflexivity. }
  rewrite Hsql. unfold trackTable.
  destruct (isTableCall _); [|reflexivity].
  destruct arguments as [|a ?]; [reflexivity|].
  destruct a; try reflexivity. destruct value; reflexivity.
Qed.

Lemma trackTable_sets (n : node) (st : State) :
  tablesWithRLS (trackTable n st) = tablesWithRLS st /\
  tablesWithPolicies (trackTable n st) = tablesWithPolicies st.
Proof.
  unfold trackTable. destruct (isTableCall n); [|auto].
  destruct n; auto. destruct arguments as [|a ?]; auto.
  destruct a; auto. destruct value; auto.
Qed.

Lemma union_none (s : gset string) : s = s ∪ setOf None.
Proof. simpl. set_solver. Qed.

Lemma handler_sets (n : node) (st : State) :
  tablesWithRLS (CallExpression_handler n st)
  = tablesWithRLS st ∪ setOf (enabledBy n) /\
  tablesWithPolicies (CallExpression_handler n st)
  = tablesWithPolicies st ∪ setOf (policedBy n).
Proof.
  unfold CallExpression_handler.
  destruct n as [| | | |callee args| | | | | | | | | | | | |];
    try (split; apply union_none).
  destruct (trackTable_sets (CallExpression callee args) st) as [Hr Hp].
  rewrite <- Hr, <- Hp.
  generalize (trackTable (CallExpression callee args) st). intros st'.
  unfold trackSql, enabledBy, policedBy, rawSql.
  destruct callee; try (split; apply union_none).
  destruct args as [|a ?]; try (split; apply union_none).
  destruct a; try (split; apply union_none).
  destruct (String.eqb name "sql"); [|split; apply union_none].
  cbn [tablesWithRLS tablesWithPolicies].
  rewrite !addTo_setOf. auto.
Qed.

Lemma collect_pass (program : node) :
  collect program = pass (nodes program) initial.
Proof.
  unfold collect, pass, nodes.
  generalize initial. induction (traverse [] program) as [|v vs IH];
    intros st; simpl; [reflexivity|]. apply IH.
Qed.

Lemma pass_spec (ns : list node) (st : State) :
  tablesFound (pass ns st) = insertAll (declarations ns) (tablesFound st) /\
  tablesWithRLS (pass ns st) = tablesWithRLS st ∪ enabled ns /\
  tablesWithPolicies (pass ns st) = tablesWithPolicies st ∪ policed ns.
Proof.
  revert st. induction ns as [|n ns IH]; intros st.
  - unfold enabled, policed. simpl. repeat split; set_solver.
  - cbn [pass fold_left]. fold (pass ns (CallExpression_handler n st)).
    destruct (IH (CallExpression_handler n st)) as (Ht & Hr & Hp).
    destruct (handler_sets n st) as [Hr' Hp'].
    rewrite Ht, Hr, Hp, handler_tables, Hr', Hp'.
    unfold declarations, enabled, policed. cbn [flat_map map union_list].
    repeat split.
    + destruct (declaredName n); reflexivity.
    + set_solver.
    + set_solver.
Qed.

Lemma declarations_app (a b : list node) :
  declarations (a ++ b) = declarations a ++ declarations b.
Proof. apply flat_map_app. Qed.

Lemma enabled_app (a b : list node) : enabled (a ++ b) = enabled a ∪ enabled b.
Proof. unfold enabled. rewrite map_app. apply union_list_app_L. Qed.

Lemma policed_app (a b : list node) : policed (a ++ b) = policed a ∪ policed b.
Proof. unfold policed. rewrite map_app. apply union_list_app_L. Qed.

(** What the pass collects from a unit: its table declarations in order,
    and the two sets of names its raw statements yield. *)
Lemma collect_program (body : list node) :
  collect (Program body)
  = {| tablesFound := insertAll (declarations (flat_map nodes body)) [];
       tablesWithRLS := enabled (flat_map nodes body);
       tablesWithPolicies := policed (flat_map nodes body) |}.
Proof.
  rewrite collect_pass, nodes_program.
  destruct (pass_spec (Program body :: flat_map nodes body) initial)
    as (Ht & Hr & Hp).
  apply state_eq; cbn [tablesFound tablesWithRLS tablesWithPolicies].
  - rewrite Ht. reflexivity.
  - rewrite Hr. unfold enabled. cbn. set_solver.
  - rewrite Hp. unfold policed. cbn. set_solver.
Qed.

Lemma declaresNoTable_declarations (n : node) :
  declaresNoTable n = true -> declarations (nodes n) = [].
Proof.
  unfold declaresNoTable, declarations.
  induction (nodes n) as [|m ms IH]; simpl; [reflexivity|].
  intros H. apply andb_prop in H as [Hm Hms].
  destruct (declaredName m); [discriminate Hm|]. apply IH, Hms.
Qed.

Lemma declaresNoTable_all (ms : list node) :
  forallb declaresNoTable ms = true -> declarations (flat_map nodes ms) = [].
Proof.
  induction ms as [|m ms IH]; simpl; [reflexivity|].
  intros H. apply andb_prop in H as [Hm Hms].
  rewrite declarations_app, (declaresNoTable_declarations m Hm), IH by exact Hms.
  reflexivity.
Qed.

(** Units with the same declarations in the same order and the same two
    sets of names get the same diagnostics. *)
Lemma same_facts_same_diagnostics (options : Options) (body body' : list node) :
  declarations (flat_map nodes body) = declarations (flat_map nodes body') ->
  enabled (flat_map nodes body) = enabled (flat_map nodes body') ->
  policed (flat_map nodes body) = policed (flat_map nodes body') ->
  requireRLSRule options (Program body) = requireRLSRule options (Program body').
Proof.
  intros Hd He Hp. unfold requireRLSRule.
  rewrite !collect_program, Hd, He, Hp. reflexivity.
Qed.

(** C6.  A raw statement may stand before or after the table declaration
    it speaks of: moving a statement that declares no table to the front
    of a declaration leaves the diagnostics of the unit as they were, and
    so does swapping the two when no table is declared between them. *)
Theorem statement_order_irrelevant
  (options : Options) (pre mid post : list node) (decl stmt : node) :
  declaresNoTable stmt = true ->
  requireRLSRule options (Program (pre ++ decl :: mid ++ stmt :: post))
  = requireRLSRule options (Program (pre ++ stmt :: decl :: mid ++ post))
  /\ (forallb declaresNoTable mid = true ->
      requireRLSRule options (Program (pre ++ decl :: mid ++ stmt :: post))
      = requireRLSRule options (Program (pre ++ stmt :: mid ++ decl :: post))).
Proof.
  intros Hstmt.
  pose proof (declaresNoTable_declarations stmt Hstmt) as Hnone.
  split; [|intros Hmid; pose proof (declaresNoTable_all mid Hmid) as Hmnone];
    apply same_facts_same_diagnostics;
    repeat (rewrite ?flat_map_app; cbn [flat_map]);
    rewrite ?declarations_app, ?enabled_app, ?policed_app, ?Hnone, ?Hmnone;
    rewrite ?app_nil_l, ?app_nil_r;
    try reflexivity; try set_solver.
Qed.

Import Fixtures.

Lemma statement_order_irrelevant_witness :
  requireRLSRule defaultRlsOptions (Program [usersDecl; enableUsers])
  = requireRLSRule defaultRlsOptions (Program [enableUsers; usersDecl]).
Proof.
  exact (proj1 (statement_order_irrelevant defaultRlsOptions [] [] []
                  usersDecl enableUsers eq_refl)).
Defined.

(** In either order the [users] table is found enabled and without a
    policy. *)
Example users_enabled_either_order :
  map messageId
    (requireRLSRule defaultRlsOptions (Program [usersDecl; enableUsers]))
  = ["missingPolicy"] /\
  map messageId
    (requireRLSRule defaultRlsOptions (Program [enableUsers; usersDecl]))
  = ["missingPolicy"] /\
  map messageId (requireRLSRule defaultRlsOptions (Program [usersDecl]))
  = ["missingRLS"].
Proof. repeat split; vm_compute; reflexivity. Qed.

End RlsCollect.

(** ** require-rls-enabled: the finalize pass *)

Module RlsExit.

Import RequireRLS RlsCollect.

Lemma mapSet_keys (k : string) (v : node) (m : list (string * node)) (k' : string) :
  In k' (map fst (mapSet k v m)) <-> k' = k \/ In k' (map fst m).
Proof.
  induction m as [|[k0 v0] m IH]; simpl.
  - intuition congruence.
  - destruct (String.eqb k k0) eqn:Hk; simpl.
    + apply String.eqb_eq in Hk. subst k0. intuition congruence.
    + rewrite IH. intuition congruence.
Qed.

Lemma mapSet_NoDup (k : string) (v : node) (m : list (string * node)) :
  List.NoDup (map fst m) -> List.NoDup (map fst (mapSet k v m)).
Proof.
  induction m as [|[k0 v0] m IH]; simpl; intros Hnd.
  - constructor; [intros []|constructor].
  - destruct (String.eqb k k0) eqn:Hk; simpl.
    + apply String.eqb_eq in Hk. subst k0. exact Hnd.
    + inversion Hnd as [|? ? Hnotin Hnd']; subst.
      constructor; [|apply IH, Hnd'].
      rewrite mapSet_keys. intros [H|H]; [|exact (Hnotin H)].
      subst k0. rewrite String.eqb_refl in Hk. discriminate Hk.
Qed.

Lemma insertAll_keys (es m : list (string * node)) (k : string) :
  In k (map fst (insertAll es m)) <-> In k (map fst es) \/ In k (map fst m).
Proof.
  revert m. induction es as [|[k0 v0] es IH]; intros m; simpl.
  - intuition.
  - unfold insertAll in *. simpl. rewrite IH, mapSet_keys.
    intuition congruence.
Qed.

Lemma insertAll_NoDup (es m : list (string * node)) :
  List.NoDup (map fst m) -> List.NoDup (map fst (insertAll es m)).
Proof.
  revert m. induction es as [|[k0 v0] es IH]; intros m Hnd; simpl; [exact Hnd|].
  apply IH, mapSet_NoDup, Hnd.
Qed.

Lemma declarations_keys (ns : list node) (t : string) :
  In t (map fst (declarations ns)) <->
  exists n, In n ns /\ declaredName n = Some t.
Proof.
  unfold declarations. induction ns as [|n ns IH]; simpl.
  - split; [intros [] | intros [n [[] _]]].
  - rewrite map_app, in_app_iff, IH. split.
    + intros [H|[m [Hm Ht]]]; [|exists m; auto].
      destruct (declaredName n) as [t'|] eqn:Hn; simpl in H; [|destruct H].
      destruct H as [<-|[]]. exists n. auto.
    + intros [m [[<-|Hm] Ht]]; [|right; exists m; auto].
      left. rewrite Ht. left. reflexivity.
Qed.

Lemma union_list_setOf (f : node -> option string) (ns : list node) (t : string) :
  t ∈ ⋃ (map (fun n => setOf (f n)) ns) <-> exists n, In n ns /\ f n = Some t.
Proof.
  induction ns as [|n ns IH].
  - split; [intros H; exfalso; set_solver | intros [n [[] _]]].
  - change (⋃ map (fun n => setOf (f n)) (n :: ns))
      with (setOf (f n) ∪ ⋃ map (fun n => setOf (f n)) ns).
    rewrite elem_of_union, IH. split.
    + intros [H|[m [Hm Ht]]]; [|exists m; simpl; auto].
      destruct (f n) as [t'|] eqn:Hn; unfold setOf in H;
        [|exfalso; set_solver].
      apply elem_of_singleton in H. subst t'. exists n. simpl. auto.
    + intros [m [[<-|Hm] Ht]]; [|right; exists m; auto].
      left. rewrite Ht. unfold setOf. apply elem_of_singleton. reflexivity.
Qed.

Lemma filter_all {A} (f : A -> bool) (l : list A) :
  (forall x, In x l -> f x = true) -> List.filter f l = l.
Proof.
  induction l as [|x l IH]; simpl; intros H; [reflexivity|].
  rewrite (H x (or_introl eq_refl)), IH; auto.
Qed.

Lemma filter_none {A} (f : A -> bool) (l : list A) :
  (forall x, In x l -> f x = false) -> List.filter f l = [].
Proof.
  induction l as [|x l IH]; simpl; intros H; [reflexivity|].
  rewrite (H x (or_introl eq_refl)), IH; auto.
Qed.

Lemma checkTable_about (options : Options) (st : State) (t : string) (n : node)
  (d : Diagnostic) :
  In d (checkTable options st (t, n)) -> data d = [("table", t)].
Proof.
  unfold checkTable.
  repeat match goal with |- context [if ?b then _ else _] => destruct b end;
    intros H; try destruct H as [<-|[]]; try destruct H; reflexivity.
Qed.

Lemma aboutTable_iff (t t' : string) (d : Diagnostic) :
  data d = [("table", t')] -> aboutTable t d = String.eqb t' t.
Proof.
  intros Hd. unfold aboutTable. rewrite Hd.
  destruct (String.eqb t' t) eqn:Ht.
  - apply String.eqb_eq in Ht. subst. apply bool_decide_eq_true_2. reflexivity.
  - apply bool_decide_eq_false_2. intros Heq. injection Heq as ->.
    rewrite String.eqb_refl in Ht. discriminate Ht.
Qed.

(** With one entry per name, the diagnostics about a table are those of
    its own entry. *)
Lemma filter_exit (options : Options) (st : State) (m : list (string * node))
  (t : string) (n : node) :
  List.NoDup (map fst m) -> In (t, n) m ->
  List.filter (aboutTable t) (flat_map (checkTable options st) m)
  = checkTable options st (t, n).
Proof.
  induction m as [|[t' n'] m IH]; simpl; intros Hnd Hin; [destruct Hin|].
  inversion Hnd as [|? ? Hnotin Hnd']; subst.
  rewrite List.filter_app.
  destruct Hin as [Heq|Hin].
  - injection Heq as -> ->.
    rewrite filter_all, filter_none; [apply app_nil_r| |].
    + intros d Hd. apply in_flat_map in Hd as ([t' n'] & Hentry & Hd).
      rewrite (aboutTable_iff t t' d (checkTable_about _ _ _ _ _ Hd)).
      apply String.eqb_neq. intros ->. apply Hnotin.
      apply (in_map fst) in Hentry. exact Hentry.
    + intros d Hd.
      rewrite (aboutTable_iff t t d (checkTable_about _ _ _ _ _ Hd)).
      apply String.eqb_refl.
  - rewrite filter_none, (IH Hnd' Hin); [reflexivity|].
    intros d Hd.
    rewrite (aboutTable_iff t t' d (checkTable_about _ _ _ _ _ Hd)).
    apply String.eqb_neq. intros ->. apply Hnotin.
    apply (in_map fst) in Hin. exact Hin.
Qed.



End RlsExit.

(** ** enforce-uuid-indexes: columns without a name *)

Module UnnamedColumns.

Import EnforceUuidIndexes Fixtures.

Lemma getColumnName_none (call : node) :
  hasLiteralName call = false -> getColumnName call = None.
Proof.
  destruct call; try reflexivity. simpl.
  destruct arguments as [|a ?]; [reflexivity|].
  destruct a; try reflexivity. discriminate.
Qed.

(** C10, as amended.  A column whose base constructor call has no literal
    first argument (the argument is absent, or is not a literal) is never
    reported, whatever its constructor, its modifiers and the indexes of
    the table: it adds nothing to the diagnostics of its table. *)
Theorem unnamed_column_never_reported
  (ctor : string) (tableName key value : node)
  (before after rest anc : list node) :
  let columns := before ++ Property key value :: after in
  let n := CallExpression (Identifier ctor)
             (tableName :: ObjectExpression columns :: rest) in
  isTableCall n = true ->
  hasLiteralName (baseCallOf value) = false ->
  (forall idx, checkColumn idx (Property key value) = [])
  /\ CallExpression_handler n anc
     = flat_map (checkColumn (extractIndexedProperties n)) before
       ++ flat_map (checkColumn (extractIndexedProperties n)) after.
Proof.
  intros columns n Htable Hname.
  assert (Hcol : forall idx, checkColumn idx (Property key value) = []).
  { intros idx. unfold checkColumn.
    destruct key; try reflexivity. destruct value; try reflexivity.
    rewrite (getColumnName_none _ Hname).
    destruct (isUUIDColumn _); reflexivity. }
  split; [exact Hcol|].
  unfold CallExpression_handler, n. fold n. rewrite Htable.
  cbn [arg nth_error]. unfold columns.
  rewrite flat_map_app. cbn [flat_map]. rewrite Hcol. reflexivity.
Qed.

Lemma unnamed_column_never_reported_witness :
  CallExpression_handler (table "users" [column "id" "uuid" []]) [] = [].
Proof.
  exact (proj2 (unnamed_column_never_reported "pgTable" (str "users")
                  (Identifier "id") (CallExpression (Identifier "uuid") [])
                  [] [] [] [] eq_refl eq_refl)).
Defined.

(** C10, the claim as stated fails: [id: uuid(5)] has no string literal as
    its first argument, and is reported under the name "5". *)
Lemma numeric_name_is_reported :
  uuidIndexRule (tableUnit "items" [column "id" "uuid" [Literal (LNumber 5)]])
  = [enforceUUIDIndexes
       (CallExpression (Identifier "uuid") [Literal (LNumber 5)]) "5"].
Proof. vm_compute. reflexivity. Qed.

End UnnamedColumns.

(** ** require-timestamp-columns *)

Module Timestamps.

Import TimestampColumns Fixtures.

Lemma rule_diagnosticsOf (options : Options) (program : node) :
  timestampColumnsRule options program = diagnosticsOf options program.
Proof.
  unfold timestampColumnsRule, lintWith, diagnosticsOf, nodes.
  induction (traverse [] program) as [|v vs IH]; simpl; [reflexivity|].
  rewrite IH. reflexivity.
Qed.







(** A unit goes on after a table it skips: the table after it is still
    reported. *)
Example unit_continues_after_skipped_table :
  map data
    (timestampColumnsRule defaultTimestampOptions
       (Program [ExpressionStatement bareTable;
                 ExpressionStatement (table "posts" [column "id" "uuid" []])]))
  = [[("tableName", "posts")]].
Proof. vm_compute. reflexivity. Qed.

End Timestamps.

(** ** The regular expressions of the naming rules *)

Module RegexFacts.

Import Regex.

Lemma orElse_is_Some {A} (x y : option A) :
  is_Some (orElse x y) <-> is_Some x \/ is_Some y.
Proof.
  destruct x as [a|]; simpl.
  - split; [left; eauto | intros _; eauto].
  - split; [right; exact H | intros [[a Ha]|H]; [discriminate Ha | exact H]].
Qed.

Lemma orElse_None {A} (x : option A) : orElse x None = x.
Proof. destruct x; reflexivity. Qed.

(** A pattern that starts with [^] matches at the start or not at all. *)
Lemma execFrom_anchored (icase : bool) (r : regex) (s : string) :
  execFrom icase (Seq Bol r) false s = None.
Proof. induction s as [|c s IH]; simpl; [reflexivity | exact IH]. Qed.

Lemma exec_anchored (icase : bool) (r : regex) (s : string) :
  exec icase (Seq Bol r) s = m icase r true s [] accept.
Proof.
  unfold exec. destruct s as [|c s]; cbn [execFrom].
  - apply orElse_None.
  - rewrite execFrom_anchored. apply orElse_None.
Qed.

Lemma classMatch_exact (p : ascii -> bool) (d : ascii) :
  classMatch false p d = p d.
Proof. unfold classMatch. simpl. apply orb_false_r. Qed.

Section ClassStar.

Variable p : ascii -> bool.
Variable k : continuation.

(** What a star over a class has consumed when it succeeds. *)
Lemma class_star_sound (greedy : bool) (n : nat) :
  forall b s cs,
    is_Some (starLoop greedy (m false (Class p)) k n b s cs) ->
    exists u s' b' cs',
      s = String.append u s' /\ SnakeCase.allOf p u = true /\
      is_Some (k b' s' cs').
Proof.
  induction n as [|n IH]; intros b s cs Hsome; cbn [starLoop] in Hsome.
  - exists EmptyString, s, b, cs. auto.
  - assert (Hcase :
      is_Some (m false (Class p) b s cs
                 (fun b' s' cs' =>
                    if Nat.ltb (String.length s') (String.length s)
                    then starLoop greedy (m false (Class p)) k n b' s' cs'
                    else None))
      \/ is_Some (k b s cs)).
    { destruct greedy; apply orElse_is_Some in Hsome; tauto. }
    destruct Hcase as [Hagain|Hk].
    + cbn [m] in Hagain. destruct s as [|d s1]; [destruct Hagain; discriminate|].
      rewrite classMatch_exact in Hagain.
      destruct (p d) eqn:Hd; [|destruct Hagain; discriminate].
      destruct (Nat.ltb _ _); [|destruct Hagain; discriminate].
      destruct (IH _ _ _ Hagain) as (u & s' & b' & cs' & -> & Hu & Hk).
      exists (String d u), s', b', cs'. simpl. rewrite Hd, Hu. auto.
    + exists EmptyString, s, b, cs. auto.
Qed.

(** A greedy star over a class takes a whole run of the class. *)
Lemma class_star_complete (n : nat) :
  forall b s cs,
    String.length s <= n ->
    SnakeCase.allOf p s = true ->
    (forall b' cs', is_Some (k b' EmptyString cs')) ->
    is_Some (starLoop true (m false (Class p)) k n b s cs).
Proof.
  induction n as [|n IH]; intros b s cs Hlen Hall Hk; cbn [starLoop].
  - destruct s; [apply Hk | simpl in Hlen; lia].
  - apply orElse_is_Some. destruct s as [|d s1]; [right; apply Hk|].
    left. cbn [m]. rewrite classMatch_exact.
    simpl in Hall. apply andb_prop in Hall as [Hd Hall]. rewrite Hd.
    assert (Hlt : Nat.ltb (String.length s1) (String.length (String d s1)) = true)
      by (apply Nat.ltb_lt; simpl; lia).
    rewrite Hlt. apply IH; [simpl in Hlen; lia | exact Hall | exact Hk].
Qed.

End ClassStar.

Lemma allOf_app (p : ascii -> bool) (u v : string) :
  SnakeCase.allOf p (String.append u v)
  = SnakeCase.allOf p u && SnakeCase.allOf p v.
Proof.
  induction u as [|c u IH]; simpl; [reflexivity|].
  rewrite IH, andb_assoc. reflexivity.
Qed.

Lemma isLower_lowerAlnum (c : ascii) :
  Js.isLower c = true -> SnakeCase.lowerAlnum c = true.
Proof. unfold SnakeCase.lowerAlnum. intros ->. reflexivity. Qed.

Lemma accept_is_Some (b : bool) (s : string) (cs : captures) :
  is_Some (accept b s cs).
Proof. unfold accept. eauto. Qed.

Lemma eol_is_Some (b : bool) (s : string) (cs : captures) :
  is_Some (m false Eol b s cs accept) <-> s = EmptyString.
Proof.
  destruct s; cbn [m].
  - split; [reflexivity | intros _; apply accept_is_Some].
  - split; [intros [x Hx]; discriminate Hx | discriminate].
Qed.

(** A literal matches itself and nothing else. *)
Lemma lit_is_Some (p : string) :
  forall b s cs (k : continuation),
    is_Some (m false (Lit p) b s cs k) <->
    exists rest,
      s = String.append p rest /\
      is_Some (k (match p with EmptyString => b | _ => false end) rest cs).
Proof.
  induction p as [|c p IH]; intros b s cs k; cbn [Lit m].
  - split; [intros H; exists s; auto | intros [rest [-> H]]; exact H].
  - destruct s as [|d s1].
    + split; [intros [x Hx]; discriminate Hx | intros [rest [H _]]; discriminate H].
    + unfold chrMatch. destruct (Ascii.eqb c d) eqn:Hcd.
      * apply Ascii.eqb_eq in Hcd. subst d. rewrite IH. split.
        -- intros [rest [-> H]]. exists rest. split; [reflexivity|].
           destruct p; exact H.
        -- intros [rest [Heq H]]. injection Heq as ->. exists rest.
           split; [reflexivity|]. destruct p; exact H.
      * split; [intros [x Hx]; discriminate Hx|].
        intros [rest [Heq _]]. injection Heq as -> _.
        rewrite Ascii.eqb_refl in Hcd. discriminate Hcd.
Qed.

(** The snake-case pattern accepts exactly the segments. *)
Lemma isValidSnakeCase_spec (name : string) :
  SnakeCase.isValidSnakeCase name = SnakeCase.isSegment name.
Proof.
  unfold SnakeCase.isValidSnakeCase, test, SnakeCase.snakePattern.
  rewrite exec_anchored. cbn [m].
  destruct name as [|c rest]; [reflexivity|].
  rewrite classMatch_exact. cbn [SnakeCase.isSegment].
  destruct (Js.isLower c); [|reflexivity]. cbn [andb].
  match goal with |- match ?o with _ => _ end = _ =>
    assert (Hiff : is_Some o <-> SnakeCase.allOf SnakeCase.lowerAlnum rest = true)
  end.
  { split.
    - intros H. apply class_star_sound in H
        as (u & s' & b' & cs' & -> & Hu & Hk).
      apply eol_is_Some in Hk. subst s'.
      rewrite allOf_app, Hu. reflexivity.
    - intros H. apply class_star_complete; [lia | exact H|].
      intros b' cs'. exact (accept_is_Some b' EmptyString cs'). }
  destruct (starLoop _ _ _ _ _ _ _) as [x|].
  - symmetry. apply Hiff. eauto.
  - destruct (SnakeCase.allOf SnakeCase.lowerAlnum rest); [|reflexivity].
    destruct (proj2 Hiff eq_refl) as [x Hx]. discriminate Hx.
Qed.

(** What the repeated group [(_SEG)] can consume before the end of the
    name is made of segment characters only. *)
Lemma more_star_sound (n : nat) :
  forall b s cs,
    is_Some (starLoop true (m false IndexNaming.moreRe)
               (fun b' s' cs' => m false Eol b' s' cs' accept) n b s cs) ->
    SnakeCase.allOf SnakeCase.lowerAlnum s = true.
Proof.
  induction n as [|n IH]; intros b s cs Hsome; cbn [starLoop] in Hsome.
  - apply eol_is_Some in Hsome. subst s. reflexivity.
  - apply orElse_is_Some in Hsome as [Hagain|Hend];
      [|apply eol_is_Some in Hend; subst s; reflexivity].
    unfold IndexNaming.moreRe, IndexNaming.segmentRe in Hagain.
    cbn [m] in Hagain.
    destruct s as [|d s1]; [destruct Hagain as [x Hx]; discriminate Hx|].
    unfold chrMatch in Hagain.
    destruct (Ascii.eqb "_" d) eqn:Hd;
      [|destruct Hagain as [x Hx]; discriminate Hx].
    apply Ascii.eqb_eq in Hd. subst d.
    destruct s1 as [|c s2]; [destruct Hagain as [x Hx]; discriminate Hx|].
    rewrite classMatch_exact in Hagain.
    destruct (Js.isLower c) eqn:Hc;
      [|destruct Hagain as [x Hx]; discriminate Hx].
    apply class_star_sound in Hagain
      as (u & s3 & b' & cs' & -> & Hu & Hk).
    destruct (Nat.ltb _ _); [|destruct Hk as [x Hx]; discriminate Hx].
    apply IH in Hk.
    cbn [SnakeCase.allOf]. rewrite (isLower_lowerAlnum c Hc), allOf_app, Hu, Hk.
    reflexivity.
Qed.

(** After the first underscore: [SEG(_SEG)*$] accepts exactly the
    segments. *)
Lemma tail_is_Some (b : bool) (s : string) (cs : captures) :
  is_Some (m false IndexNaming.tailRe b s cs accept) <->
  SnakeCase.isSegment s = true.
Proof.
  unfold IndexNaming.tailRe, IndexNaming.segmentRe. cbn [m].
  destruct s as [|c rest].
  - split; [intros [x Hx]; discriminate Hx | discriminate].
  - rewrite classMatch_exact. cbn [SnakeCase.isSegment].
    destruct (Js.isLower c);
      [|split; [intros [x Hx]; discriminate Hx | discriminate]].
    cbn [andb]. split.
    + intros H. apply class_star_sound in H
        as (u & s' & b' & cs' & -> & Hu & Hk).
      apply more_star_sound in Hk. rewrite allOf_app, Hu, Hk. reflexivity.
    + intros H. apply class_star_complete; [lia | exact H|].
      intros b' cs'. exact (accept_is_Some b' EmptyString cs').
Qed.

Lemma Segments_isSegment (s : string) :
  IndexNaming.Segments s <-> SnakeCase.isSegment s = true.
Proof.
  split; [|apply IndexNaming.one_segment].
  induction 1 as [s Hs|s rest Hs _ IH]; [exact Hs|].
  destruct s as [|c s0]; [discriminate Hs|].
  change (String.append (String c s0) (String "_" rest))
    with (String c (String.append s0 (String "_" rest))).
  cbn [SnakeCase.isSegment] in *.
  apply andb_prop in Hs as [Hc Hs0]. rewrite Hc, allOf_app, Hs0.
  destruct rest as [|c' rest']; [discriminate IH|].
  cbn [SnakeCase.isSegment] in IH. apply andb_prop in IH as [Hc' Hrest].
  cbn [SnakeCase.allOf]. rewrite (isLower_lowerAlnum c' Hc'), Hrest.
  reflexivity.
Qed.

(** The first gate of the index-naming rule accepts exactly the names of
    the generic shape. *)
Lemma validPattern_spec (name : string) :
  test false IndexNaming.validPattern name = true <->
  IndexNaming.GenericShape name.
Proof.
  unfold test, IndexNaming.validPattern. rewrite exec_anchored.
  assert (Hiff :
    is_Some (m false (Seq (Group 1 IndexNaming.prefixRe)
                        (Seq (Chr "_") IndexNaming.tailRe))
               true name [] accept)
    <-> IndexNaming.GenericShape name).
  { unfold IndexNaming.GenericShape, IndexNaming.prefixRe.
    cbn [m]. rewrite !orElse_is_Some, !lit_is_Some.
    assert (Hrest : forall rest0 cs,
      is_Some (match rest0 with
               | EmptyString => None
               | String d s' =>
                   if chrMatch false "_" d
                   then m false IndexNaming.tailRe false s' cs accept
                   else None
               end)
      <-> exists rest, rest0 = String "_" rest /\ IndexNaming.Segments rest).
    { intros rest0 cs. destruct rest0 as [|d s'].
      - split; [intros [x Hx]; discriminate Hx | intros [r [H _]]; discriminate H].
      - unfold chrMatch. destruct (Ascii.eqb "_" d) eqn:Hd.
        + apply Ascii.eqb_eq in Hd. subst d.
          rewrite tail_is_Some, <- Segments_isSegment.
          split; [intros H; exists s'; auto|].
          intros [r [Heq H]]. injection Heq as ->. exact H.
        + split; [intros [x Hx]; discriminate Hx|].
          intros [r [Heq _]]. injection Heq as Hd' _. subst d.
          rewrite Ascii.eqb_refl in Hd. discriminate Hd. }
    split.
    - intros [H|[H|H]]; destruct H as [rest0 [-> H]];
        apply Hrest in H as [rest [-> Hseg]].
      + exists "idx", rest. simpl. auto.
      + exists "uq", rest. simpl. auto.
      + exists "uk", rest. simpl. auto 6.
    - intros (prefix & rest & Hin & -> & Hseg).
      destruct Hin as [<-|[<-|[<-|[]]]];
        [left | right; left | right; right];
        exists (String "_" rest); (split; [reflexivity|]);
        exact (proj2 (Hrest (String "_" rest) _)
                 (ex_intro _ rest (conj eq_refl Hseg))). }
  destruct (m false _ true name [] accept) as [x|].
  - split; [intros _; apply Hiff; eauto | reflexivity].
  - split; [discriminate|]. intros H. apply Hiff in H as [x Hx]. discriminate Hx.
Qed.

End RegexFacts.

(** ** enforce-index-naming: the two gates *)

Module IndexNames.

Import IndexNaming Fixtures.



Lemma pass_state (ns : list node) (st : State) (ds : list Diagnostic) :
  fst (pass ns (st, ds)) = fold_left (fun st n => trackTableName n st) ns st.
Proof.
  revert st ds. induction ns as [|n ns IH]; intros st ds; [reflexivity|].
  cbn [pass fold_left]. unfold CallExpression_handler at 2. cbn [fst snd].
  apply IH.
Qed.






(** The three indexes of the [users] table: the first passes both gates,
    the second fails the prefix gate, the third the shape gate. *)
Example users_indexes_checked :
  map data (indexNamingRule usersWithIndexes)
  = [[("name", "idx_email")]; [("name", "users_email_idx")]].
Proof. vm_compute. reflexivity. Qed.

End IndexNames.

(** ** The traversal hands every node its ancestors *)

Module TraversalFacts.

Import ChainShapes.

Lemma closed_nil : closed [].
Proof. intros x a []. Qed.

Lemma closed_app (l1 l2 : list visit) :
  closed l1 -> closed l2 -> closed (l1 ++ l2).
Proof.
  intros H1 H2 x a Hin. apply in_app_or in Hin as [Hin|Hin].
  - apply incl_appl, (H1 x a Hin).
  - apply incl_appr, (H2 x a Hin).
Qed.

Lemma closed_flat_map (f : node -> list visit) (l : list node) :
  Forall (fun c => closed (f c)) l -> closed (flat_map f l).
Proof.
  induction 1 as [|c l Hc _ IH]; simpl; [apply closed_nil|].
  apply closed_app; assumption.
Qed.

Lemma closed_cons (t : node) (top : list node) (rest : list visit) :
  traverse top t = (t, top) :: rest -> closed rest ->
  closed ((t, top) :: rest).
Proof.
  intros Heq Hrest x a Hin.
  destruct Hin as [Hhead|Hin].
  - injection Hhead as <- <-. rewrite Heq. apply incl_refl.
  - apply incl_tl, (Hrest x a Hin).
Qed.

(** Whatever the traversal visits, it visits with its whole subtree. *)
Lemma traverse_closed (t : node) : forall top, closed (traverse top t).
Proof.
  induction t using node_ind'; intros top; cbn [traverse];
    (apply closed_cons; [reflexivity|]);
    repeat first
      [ apply closed_nil
      | apply closed_app
      | apply closed_flat_map;
        match goal with H : Forall _ _ |- _ =>
          eapply List.Forall_impl; [|exact H]; intros c Hc; apply Hc end
      | match goal with IH : forall top, closed (traverse top ?c) |- _ =>
          apply IH end ].
Qed.

(** The receiver of a chain is visited below the member accesses and the
    calls of the chain's segments. *)
Lemma chain_receiver_visited (segs : list segment) :
  forall inner top,
    In (inner, chainAncestors inner segs top)
       (traverse top (chain inner segs)).
Proof.
  induction segs as [|sg rest IH]; intros inner top.
  - simpl. destruct inner; left; reflexivity.
  - cbn [chainAncestors]. unfold chain. cbn [fold_left].
    fold (chain (callOn inner sg) rest).
    specialize (IH (callOn inner sg) top).
    apply (traverse_closed _ top _ _ IH).
    unfold callOn at 2. cbn [traverse]. right. apply in_or_app. left.
    right. apply in_or_app. left. destruct inner; left; reflexivity.
Qed.

End TraversalFacts.

(** ** no-select-star: a bare select and what follows it *)

Module SelectChains.

Import NoSelectStar ChainShapes.

Lemma topLevel_no_query (top : list node) :
  LimitJoinComplexity.topLevel top = true -> hasQueryMethod top = false.
Proof.
  destruct top as [|x top]; [reflexivity|].
  destruct x; simpl; intros H; try discriminate H; reflexivity.
Qed.

Lemma scan_chain (top : list node) (rest : list segment) :
  LimitJoinComplexity.topLevel top = true ->
  forall inner sg,
    scan (callOn inner sg) (chainAncestors (callOn inner sg) rest top)
    = existsb isQueryName (sg :: rest).
Proof.
  intros Htop. induction rest as [|sg' rest IH]; intros inner sg.
  - cbn [chainAncestors existsb]. unfold callOn. unfold isQueryName.
    rewrite orb_false_r.
    destruct top as [|x top]; cbn [scan].
    + destruct (Js.arrayIncludes queryMethods (fst sg)); reflexivity.
    + destruct (Js.arrayIncludes queryMethods (fst sg)); [reflexivity|].
      destruct x; try discriminate Htop; reflexivity.
  - cbn [chainAncestors]. unfold callOn at 1. cbn [scan].
    change (CallExpression (MemberExpression inner (Identifier (fst sg))) (snd sg))
      with (callOn inner sg).
    change (existsb isQueryName (sg :: sg' :: rest))
      with (isQueryName sg || existsb isQueryName (sg' :: rest)).
    unfold isQueryName at 1.
    destruct (Js.arrayIncludes queryMethods (fst sg)); [reflexivity|].
    cbn [orb]. unfold callOn at 1 3. apply IH.
Qed.

(** X2.  A call [receiver.select()] without arguments that starts a chain
    standing as a whole expression is handed to the rule with the chain's
    member accesses and calls as its ancestors, and is reported exactly
    when one of the segments chained after it is [from], [where],
    [orderBy], [limit], [offset], [leftJoin] or [innerJoin]; a bare
    [select()] followed by nothing, or by other methods only, is not
    reported. *)
Theorem select_reported_iff_query_verb_follows
  (receiver : node) (segs : list segment) (top : list node) :
  let sel := CallExpression (MemberExpression receiver (Identifier "select")) [] in
  LimitJoinComplexity.topLevel top = true ->
  In (sel, chainAncestors sel segs top) (traverse top (chain sel segs)) /\
  CallExpression_handler sel (chainAncestors sel segs top)
  = if existsb isQueryName segs then [noSelectStar sel] else [].
Proof.
  intros sel Htop. split; [apply TraversalFacts.chain_receiver_visited|].
  unfold CallExpression_handler, sel. fold sel. cbn [String.eqb List.length Nat.eqb andb].
  replace (String.eqb "select" "select") with true by reflexivity. cbn [andb].
  destruct segs as [|sg rest].
  - cbn [chainAncestors existsb]. rewrite (topLevel_no_query top Htop).
    reflexivity.
  - unfold hasQueryMethod. cbn [chainAncestors skipMembers].
    unfold callOn at 1.
    change (CallExpression (MemberExpression sel (Identifier (fst sg))) (snd sg))
      with (callOn sel sg).
    rewrite (scan_chain top rest Htop sel sg). reflexivity.
Qed.

Lemma select_reported_iff_query_verb_follows_witness :
  CallExpression_handler
    (chain Fixtures.db [("select", [])])
    (chainAncestors (chain Fixtures.db [("select", [])])
       [("from", [Identifier "users"]); ("where", [Identifier "c"])] [])
  = [noSelectStar (chain Fixtures.db [("select", [])])].
Proof.
  exact (proj2 (select_reported_iff_query_verb_follows Fixtures.db
                  [("from", [Identifier "users"]); ("where", [Identifier "c"])]
                  [] eq_refl)).
Defined.

End SelectChains.

(** ** limit-join-complexity: every count a chain reports *)

Module JoinCounts.

Import LimitJoinComplexity ChainShapes JoinChains.

Section Counts.

Variable options : Options.

Lemma chainDiagnostics_data (root : node) (rsegs : list segment) :
  forall k,
    map data (chainDiagnostics options root rsegs k)
    = map (joinData (maxJoinsOf options))
        (List.filter (fun c => Nat.ltb (maxJoinsOf options) c)
           (seq k (joinSegments rsegs))).
Proof.
  induction rsegs as [|sg rsegs IH]; intros k; [reflexivity|].
  cbn [chainDiagnostics]. rewrite map_app, IH.
  unfold joinSegments. cbn [List.filter].
  destruct (isJoinName (fst sg)); cbn [andb List.length seq List.filter app].
  - destruct (Nat.ltb (maxJoinsOf options) k); reflexivity.
  - reflexivity.
Qed.

Lemma filter_above_length (max : nat) (count : nat) :
  forall k,
    List.length (List.filter (fun c => Nat.ltb max c) (seq k count))
    = Nat.min count (k + count - S max).
Proof.
  induction count as [|count IH]; intros k; [reflexivity|].
  cbn [seq List.filter]. specialize (IH (S k)).
  destruct (Nat.ltb max k) eqn:Hk.
  - apply Nat.ltb_lt in Hk. cbn [List.length]. rewrite IH. lia.
  - apply Nat.ltb_ge in Hk. rewrite IH. lia.
Qed.

(** X1.  On a fluent chain that stands as a whole expression, and whose
    receiver and arguments hold no join of their own, the rule reports
    one diagnostic for every count from one to the number of join
    segments that exceeds the maximum, outermost join first, and nothing
    else: a chain with [N] join segments is reported [N - maxJoins] times,
    and never when [N] is at most [maxJoins]. *)
Theorem chain_reports_counts_above_max
  (root : node) (segs : list segment) (anc : list node) :
  topLevel anc = true ->
  joinFree root = true ->
  forallb argsJoinFree segs = true ->
  let N := joinSegments segs in
  let ds := lintUnder options anc (chain root segs) in
  map data ds
  = map (joinData (maxJoinsOf options))
      (List.filter (fun c => Nat.ltb (maxJoinsOf options) c) (seq 1 N))
  /\ List.length ds = N - maxJoinsOf options
  /\ (N <= maxJoinsOf options -> ds = []).
Proof.
  intros Htop Hroot Hargs N ds.
  assert (Hds : ds = chainDiagnostics options root (rev segs) 1).
  { unfold ds. rewrite <- (rev_involutive segs) at 1.
    rewrite chain_lint; [|exact Hroot| |apply topLevel_inChain, Htop].
    - rewrite (topLevel_countJoins anc Htop). reflexivity.
    - rewrite forallb_rev. exact Hargs. }
  assert (Hdata : map data ds
            = map (joinData (maxJoinsOf options))
                (List.filter (fun c => Nat.ltb (maxJoinsOf options) c) (seq 1 N))).
  { rewrite Hds, chainDiagnostics_data, joinSegments_rev. reflexivity. }
  assert (Hlen : List.length ds = N - maxJoinsOf options).
  { rewrite <- (length_map data ds), Hdata, length_map, filter_above_length. lia. }
  split; [exact Hdata|]. split; [exact Hlen|].
  intros Hle. destruct ds; [reflexivity|]. simpl in Hlen. lia.
Qed.

End Counts.

Lemma chain_reports_counts_above_max_witness :
  map data
    (lintUnder Fixtures.defaultJoinOptions [] Fixtures.fiveJoins)
  = [joinData 3 4; joinData 3 5].
Proof.
  exact (proj1 (chain_reports_counts_above_max Fixtures.defaultJoinOptions
                  Fixtures.db Fixtures.fiveJoinSegments []
                  eq_refl eq_refl eq_refl)).
Defined.

End JoinCounts.

(** ** enforce-uuid-indexes: the decision for a column *)

Module UuidColumns.

Import EnforceUuidIndexes ColumnShapes.

Lemma endsWith_spec (s p : string) :
  Js.endsWith s p = true <-> exists a, s = String.append a p.
Proof.
  induction s as [|c s IH]; cbn [Js.endsWith].
  - rewrite orb_false_r, String.eqb_eq. split.
    + intros <-. exists EmptyString. reflexivity.
    + intros [a Ha]. destruct a; [exact Ha | discriminate Ha].
  - rewrite orb_true_iff, String.eqb_eq, IH. split.
    + intros [<-|[a ->]]; [exists EmptyString; reflexivity|].
      exists (String c a). reflexivity.
    + intros [a Ha]. destruct a as [|d a]; [left; exact Ha|].
      right. change (String c s = String d (String.append a p)) in Ha.
      injection Ha as _ ->. eauto.
Qed.

Lemma chain_is_call (ctor : string) (args : list node) (mods : list segment) :
  exists c a, columnValue ctor args mods = CallExpression c a.
Proof.
  unfold columnValue.
  induction mods as [|sg mods _] using rev_ind; [eauto|].
  rewrite chain_snoc. unfold callOn. eauto.
Qed.

(** Under its modifiers, the base call of a column is its constructor
    call. *)
Lemma baseCallOf_column (ctor : string) (args : list node) (mods : list segment) :
  baseCallOf (columnValue ctor args mods) = CallExpression (Identifier ctor) args.
Proof.
  induction mods as [|sg mods IH] using rev_ind; [reflexivity|].
  unfold columnValue in *. rewrite chain_snoc. unfold callOn.
  destruct (chain_is_call ctor args mods) as (c & a & Heq).
  unfold columnValue in Heq. cbn [baseCallOf]. rewrite Heq. rewrite <- Heq.
  exact IH.
Qed.

Lemma hasColumnLevelIndex_column (ctor : string) (args : list node)
  (mods : list segment) :
  hasColumnLevelIndex (columnValue ctor args mods) = existsb isIndexModifier mods.
Proof.
  induction mods as [|sg mods IH] using rev_ind; [reflexivity|].
  unfold columnValue in *. rewrite chain_snoc, existsb_app. unfold callOn.
  cbn [hasColumnLevelIndex existsb]. rewrite orb_false_r.
  unfold isIndexModifier at 2.
  destruct (Js.arrayIncludes ["primaryKey"; "unique"] (fst sg)).
  - rewrite orb_true_r. reflexivity.
  - rewrite orb_false_r. exact IH.
Qed.

(** X3.  Which constructor calls count as UUID columns: [uuid(...)]
    always; [varchar], [text] and [char] exactly when the first argument
    is a literal whose text, in lower case, contains [uuid], ends with
    [_id] or is [id]; no other constructor. *)
Theorem isUUIDColumn_spec (ctor : string) (args : list node) :
  isUUIDColumn (CallExpression (Identifier ctor) args) = true <->
  ctor = "uuid" \/
  (In ctor ["varchar"; "text"; "char"] /\
   exists v, arg 0 args = Some (Literal v) /\ uuidLikeName (stringOfLiteral v)).
Proof.
  unfold isUUIDColumn.
  destruct (String.eqb ctor "uuid") eqn:Huuid.
  - apply String.eqb_eq in Huuid. split; [auto | reflexivity].
  - apply String.eqb_neq in Huuid.
    destruct (Js.arrayIncludes ["varchar"; "text"; "char"] ctor) eqn:Hfamily.
    + apply JsFacts.arrayIncludes_spec in Hfamily.
      destruct (arg 0 args) as [[]|] eqn:Harg;
        try (split; [discriminate | intros [H|(_ & v & Hv & _)]; congruence]).
      unfold uuidLikeName. cbn zeta.
      rewrite !orb_true_iff, JsFacts.includes_spec, endsWith_spec, String.eqb_eq.
      split.
      * intros H. right. split; [exact Hfamily|]. exists value.
        split; [reflexivity|]. tauto.
      * intros [H|(_ & v & Hv & H)]; [congruence|].
        injection Hv as <-. tauto.
    + split; [discriminate|]. intros [H|(Hin & _)]; [congruence|].
      apply JsFacts.arrayIncludes_spec in Hin. congruence.
Qed.

(** X4.  The decision for a column [key: ctor(args).m1()...mk()].  A
    [.primaryKey()] or [.unique()] anywhere among the modifiers, a
    property name the table indexes, a constructor that is not UUID-like
    or an empty declared name each silence the check; otherwise the
    column is reported once, under its declared name. *)
Theorem column_decision
  (idx : gset string) (key ctor : string) (args : list node)
  (mods : list segment) :
  let value := columnValue ctor args mods in
  let prop := Property (Identifier key) value in
  (existsb isIndexModifier mods = true -> checkColumn idx prop = [])
  /\ (key ∈ idx -> checkColumn idx prop = [])
  /\ (isUUIDColumn (CallExpression (Identifier ctor) args) = false ->
      checkColumn idx prop = [])
  /\ (arg 0 args = Some (Literal (LString EmptyString)) ->
      checkColumn idx prop = [])
  /\ (forall v,
        existsb isIndexModifier mods = false ->
        key ∉ idx ->
        isUUIDColumn (CallExpression (Identifier ctor) args) = true ->
        arg 0 args = Some (Literal v) ->
        stringOfLiteral v <> EmptyString ->
        checkColumn idx prop = [enforceUUIDIndexes value (stringOfLiteral v)]).
Proof.
  intros value prop.
  assert (Hcheck :
    checkColumn idx prop
    = if isUUIDColumn (CallExpression (Identifier ctor) args) then
        match getColumnName (CallExpression (Identifier ctor) args) with
        | Some columnName =>
            if Js.truthy columnName && negb (existsb isIndexModifier mods)
               && negb (bool_decide (key ∈ idx))
            then [enforceUUIDIndexes value columnName] else []
        | None => []
        end
      else []).
  { unfold prop, checkColumn.
    destruct (chain_is_call ctor args mods) as (c & a & Heq).
    fold value in Heq. rewrite Heq. rewrite <- Heq. unfold value.
    rewrite baseCallOf_column, hasColumnLevelIndex_column. reflexivity. }
  rewrite Hcheck. repeat split.
  - intros ->. destruct (isUUIDColumn _); [|reflexivity].
    destruct (getColumnName _); [|reflexivity].
    cbn [negb]. rewrite andb_false_r. reflexivity.
  - intros Hkey. destruct (isUUIDColumn _); [|reflexivity].
    destruct (getColumnName _); [|reflexivity].
    rewrite (bool_decide_eq_true_2 _ Hkey). cbn [negb].
    rewrite andb_false_r. reflexivity.
  - intros ->. reflexivity.
  - intros Harg. unfold getColumnName. rewrite Harg.
    destruct (isUUIDColumn _); reflexivity.
  - intros v Hmods Hkey Huuid Harg Hname.
    rewrite Huuid, Hmods. unfold getColumnName. rewrite Harg.
    rewrite (bool_decide_eq_false_2 _ Hkey).
    destruct (stringOfLiteral v); [congruence | reflexivity].
Qed.

Lemma column_decision_witness :
  checkColumn ∅
    (Property (Identifier "ownerId")
       (columnValue "uuid" [Fixtures.str "owner_id"]
          [("notNull", []); ("unique", []); ("defaultRandom", [])]))
  = [] /\
  checkColumn ∅
    (Property (Identifier "ownerId")
       (columnValue "uuid" [Fixtures.str "owner_id"] [("notNull", [])]))
  = [enforceUUIDIndexes
       (columnValue "uuid" [Fixtures.str "owner_id"] [("notNull", [])])
       "owner_id"].
Proof.
  split.
  - exact (proj1 (column_decision ∅ "ownerId" "uuid" [Fixtures.str "owner_id"]
                    [("notNull", []); ("unique", []); ("defaultRandom", [])])
             eq_refl).
  - destruct (column_decision ∅ "ownerId" "uuid" [Fixtures.str "owner_id"]
                [("notNull", [])]) as (_ & _ & _ & _ & Hreport).
    apply (Hreport (LString "owner_id")); try reflexivity.
    + apply not_elem_of_empty.
    + discriminate.
Defined.

Lemma isUUIDColumn_spec_witness :
  isUUIDColumn (CallExpression (Identifier "text") [Fixtures.str "Parent_ID"])
  = true.
Proof.
  apply (proj2 (isUUIDColumn_spec "text" [Fixtures.str "Parent_ID"])).
  right. split; [right; left; reflexivity|].
  exists (LString "Parent_ID"). split; [reflexivity|].
  right. left. exists "parent". reflexivity.
Defined.

(** What the search for [.on(...)] finds, it finds among the arguments of
    an [.on(...)] call of the receiver chain. *)
Lemma findOn_sound (v : node) (p : string) :
  p ∈ findOn v -> OnArgument v p.
Proof.
  enough (H : (p ∈ findOn v -> OnArgument v p) /\
              (forall args,
                  p ∈ findOn (CallExpression v args) ->
                  OnArgument (CallExpression v args) p))
    by apply H.
  assert (Hstep : forall o,
             (p ∈ findOn o -> OnArgument o p) ->
             forall property args,
               p ∈ findOn (CallExpression (MemberExpression o property) args) ->
               OnArgument (CallExpression (MemberExpression o property) args) p).
  { intros o Ho property args. cbn [findOn].
    assert (Hbelow : p ∈ findOn o ->
              OnArgument (CallExpression (MemberExpression o property) args) p)
      by (intros Hp; apply on_below, Ho, Hp).
    destruct property; try exact Hbelow.
    destruct (String.eqb name "on") eqn:Hon; [|exact Hbelow].
    apply String.eqb_eq in Hon. subst name. intros Hp.
    apply UuidIndexes.onArguments_acc in Hp as [Hp|[t Ht]];
      [exfalso; revert Hp; apply not_elem_of_empty|].
    eapply on_here, Ht. }
  induction v using node_ind';
    try (split; [|intros ?]; cbn [findOn]; intros H0; exfalso; revert H0;
         apply not_elem_of_empty).
  - split; [cbn [findOn]; intros H0; exfalso; revert H0; apply not_elem_of_empty|].
    intros args. apply Hstep, IHv1.
  - split; [apply IHv|].
    intros args'. cbn [findOn]. intros H0; exfalso; revert H0.
    apply not_elem_of_empty.
Qed.

End UuidColumns.

(** ** enforce-uuid-indexes: where indexed names come from *)

Module IndexedNames.

Import EnforceUuidIndexes ColumnShapes BuilderShapes.

Lemma find_split {A : Type} (f : A -> bool) (l : list A) (x : A) :
  find f l = Some x ->
  exists before after,
    l = before ++ x :: after /\
    forallb (fun y => negb (f y)) before = true.
Proof.
  induction l as [|y l IH]; [discriminate|]. cbn [find].
  destruct (f y) eqn:Hy.
  - intros [= ->]. exists [], l. split; reflexivity.
  - intros Hfind. destruct (IH Hfind) as (before & after & -> & Hbefore).
    exists (y :: before), after. split; [reflexivity|].
    cbn [forallb]. rewrite Hy, Hbefore. reflexivity.
Qed.

Lemma processIndexObject_inv (props : list node) (acc : gset string) (p : string) :
  p ∈ processIndexObject props acc ->
  p ∈ acc \/ exists k v, In (Property k v) props /\ p ∈ findOn v.
Proof.
  unfold processIndexObject. revert acc.
  induction props as [|x props IH]; intros acc Hp; [left; exact Hp|].
  cbn [fold_left] in Hp. apply IH in Hp as [Hp|(k & v & Hin & Hv)].
  - destruct x; try (left; exact Hp).
    destruct x2; try (left; exact Hp).
    apply elem_of_union in Hp as [Hp|Hp]; [|left; exact Hp].
    right. eexists _, _. split; [left; reflexivity | exact Hp].
  - right. exists k, v. split; [right; exact Hin | exact Hv].
Qed.

Lemma extractFromBody_inv (body : node) (p : string) :
  p ∈ extractFromBody body ->
  exists props, ReturnsObject body props /\ p ∈ processIndexObject props ∅.
Proof.
  destruct body; cbn [extractFromBody];
    try (intros H; exfalso; revert H; apply not_elem_of_empty).
  - intros Hp. eexists. split; [constructor | exact Hp].
  - destruct (find isReturnStatement body) as [r|] eqn:Hfind;
      [|intros H; exfalso; revert H; apply not_elem_of_empty].
    destruct r; try (intros H; exfalso; revert H; apply not_elem_of_empty).
    destruct argument as [r|];
      [|intros H; exfalso; revert H; apply not_elem_of_empty].
    destruct r; try (intros H; exfalso; revert H; apply not_elem_of_empty).
    intros Hp. apply find_split in Hfind as (before & after & -> & Hbefore).
    eexists. split; [constructor; exact Hbefore | exact Hp].
Qed.

(** X5.  A property name counts as indexed by the table only if the
    third argument of the table call is a function, the object that
    function returns has a property whose value's receiver chain reaches an
    [.on(...)] call, and that call lists [x.name] for some [x]. *)
Theorem indexed_names_come_from_on
  (callee : node) (args : list node) (p : string) :
  p ∈ extractIndexedProperties (CallExpression callee args) ->
  exists builder body props k v,
    arg 2 args = Some builder /\
    isBuilder builder body /\
    ReturnsObject body props /\
    In (Property k v) props /\
    OnArgument v p.
Proof.
  cbn [extractIndexedProperties].
  destruct (arg 2 args) as [builder|] eqn:Harg;
    [|intros H; exfalso; revert H; apply not_elem_of_empty].
  destruct builder;
    try (intros H; exfalso; revert H; apply not_elem_of_empty);
    intros Hp;
    apply extractFromBody_inv in Hp as (props & Hret & Hp);
    apply processIndexObject_inv in Hp as [Hp|(k & v & Hin & Hv)];
    try (exfalso; revert Hp; apply not_elem_of_empty);
    eexists _, _, props, k, v;
    (split; [reflexivity|]);
    (split; [|split; [exact Hret|split; [exact Hin|]];
              apply UuidColumns.findOn_sound, Hv]).
  - left. eexists. reflexivity.
  - right. eexists. reflexivity.
Qed.

Lemma indexed_names_come_from_on_witness :
  exists builder body props k v,
    arg 2 [Fixtures.str "posts"; ObjectExpression Fixtures.postsColumns;
           Fixtures.postsBuilder] = Some builder /\
    isBuilder builder body /\
    ReturnsObject body props /\
    In (Property k v) props /\
    OnArgument v "userId".
Proof.
  apply (indexed_names_come_from_on (Identifier "pgTable")
           [Fixtures.str "posts"; ObjectExpression Fixtures.postsColumns;
            Fixtures.postsBuilder] "userId").
  apply (UuidIndexes.processIndexObject_In Fixtures.postsIndexes ∅
           (Identifier "idx")
           (CallExpression
              (MemberExpression (CallExpression (Identifier "index") [Fixtures.str "x"])
                 (Identifier "on"))
              [MemberExpression (Identifier "table") (Identifier "userId")])).
  - left. reflexivity.
  - apply (UuidIndexes.onArguments_In _ (Identifier "table")). left. reflexivity.
Defined.

End IndexedNames.

(** ** require-rls-enabled: the statements the rule recognises *)

Module RlsStatementFacts.

Import Regex RequireRLS RlsStatements.

Lemma word_classMatch (c : ascii) : classMatch true word c = word c.
Proof. destruct c as [[] [] [] [] [] [] [] []]; vm_compute; reflexivity. Qed.

Lemma word_not_space (c : ascii) :
  word c = true -> classMatch true space c = false.
Proof.
  destruct c as [[] [] [] [] [] [] [] []]; vm_compute;
    intros H; try reflexivity; discriminate H.
Qed.

Lemma word_not_quote (c : ascii) :
  word c = true -> classMatch true quoteChar c = false.
Proof.
  destruct c as [[] [] [] [] [] [] [] []]; vm_compute;
    intros H; try reflexivity; discriminate H.
Qed.

Lemma word_is_dot (c : ascii) :
  word c = true -> classMatch true dot c = true.
Proof.
  destruct c as [[] [] [] [] [] [] [] []]; vm_compute;
    intros H; try reflexivity; discriminate H.
Qed.

Lemma append_cons (c : ascii) (s x : string) :
  String.append (String c s) x = String c (String.append s x).
Proof. reflexivity. Qed.

Lemma append_empty (x : string) : String.append EmptyString x = x.
Proof. reflexivity. Qed.

Lemma append_empty_r (s : string) : String.append s EmptyString = s.
Proof.
  induction s as [|c s IH]; [reflexivity|].
  rewrite append_cons, IH. reflexivity.
Qed.

Lemma length_append (u v : string) :
  String.length (String.append u v) = String.length u + String.length v.
Proof.
  induction u as [|c u IH]; [reflexivity|].
  rewrite append_cons. cbn [String.length]. rewrite IH. reflexivity.
Qed.

Lemma consumed_append (u rest : string) :
  consumed (String.append u rest) rest = u.
Proof.
  unfold consumed. rewrite length_append.
  replace (String.length u + String.length rest - String.length rest)
    with (String.length u) by lia.
  induction u as [|c u IH]; [reflexivity|].
  rewrite append_cons. cbn [String.length takeN]. rewrite IH. reflexivity.
Qed.

(** A greedy run of word characters takes the whole name when what
    follows is not a word character. *)
Lemma word_star_greedy (k : continuation) (x : captures) (rest : string)
  (cs : captures) :
  endsWord rest = true ->
  (forall b, k b rest cs = Some x) ->
  forall u n b,
    SnakeCase.allOf word u = true -> String.length u <= n ->
    starLoop true (m true (Class word)) k n b (String.append u rest) cs = Some x.
Proof.
  intros Hend Hk. induction u as [|c u IH]; intros n b Hall Hlen.
  - rewrite append_empty. destruct n as [|n]; cbn [starLoop]; [apply Hk|].
    cbn [m]. destruct rest as [|d r]; [apply Hk|].
    rewrite word_classMatch. cbn [endsWord] in Hend.
    apply negb_true_iff in Hend. rewrite Hend. apply Hk.
  - destruct n as [|n]; [cbn [String.length] in Hlen; lia|].
    rewrite append_cons. cbn [starLoop m].
    cbn [SnakeCase.allOf] in Hall. apply andb_prop in Hall as [Hc Hall].
    rewrite word_classMatch, Hc.
    assert (Hlt : Nat.ltb (String.length (String.append u rest))
                    (String.length (String c (String.append u rest))) = true)
      by (apply Nat.ltb_lt; cbn [String.length]; lia).
    rewrite Hlt, IH by (cbn [String.length] in Hlen; first [exact Hall | lia]).
    reflexivity.
Qed.

Lemma m_seq (icase : bool) (r1 r2 : regex) (b : bool) (s : string)
  (cs : captures) (k : continuation) :
  m icase (Seq r1 r2) b s cs k
  = m icase r1 b s cs (fun b' s' cs' => m icase r2 b' s' cs' k).
Proof. reflexivity. Qed.

Lemma m_star (icase greedy : bool) (r : regex) (b : bool) (s : string)
  (cs : captures) (k : continuation) :
  m icase (Star greedy r) b s cs k
  = starLoop greedy (m icase r) k (String.length s) b s cs.
Proof. reflexivity. Qed.

(** Under the [i] flag a literal matches its own text. *)
Lemma lit_icase (p : string) :
  forall b rest cs (k : continuation),
    m true (Lit p) b (String.append p rest) cs k
    = k (match p with EmptyString => b | _ => false end) rest cs.
Proof.
  induction p as [|c p IH]; intros b rest cs k; [reflexivity|].
  rewrite append_cons. cbn [Lit m]. unfold chrMatch.
  rewrite Ascii.eqb_refl, IH. destruct p; reflexivity.
Qed.

(** [\s+] on one blank followed by something that is not white space. *)
Lemma ws_single (b : bool) (rest : string) (d : ascii) (r : string)
  (cs : captures) (k : continuation) :
  rest = String d r -> classMatch true space d = false ->
  m true ws b (String " " rest) cs k = k false rest cs.
Proof.
  intros -> Hd. unfold ws, Plus. cbn [m].
  change (classMatch true space " ") with true. cbn iota.
  cbn [String.length starLoop m]. rewrite Hd. reflexivity.
Qed.

Lemma ws_fail (b : bool) (d : ascii) (r : string) (cs : captures)
  (k : continuation) :
  classMatch true space d = false ->
  m true ws b (String d r) cs k = None.
Proof. intros Hd. unfold ws, Plus. cbn [m]. rewrite Hd. reflexivity. Qed.

Lemma opt_quote_skip (b : bool) (rest : string) (d : ascii) (r : string)
  (cs : captures) (k : continuation) :
  rest = String d r -> classMatch true quoteChar d = false ->
  m true (Opt (Class quoteChar)) b rest cs k = k b rest cs.
Proof. intros -> Hd. unfold Opt. cbn [m]. rewrite Hd. reflexivity. Qed.

Lemma opt_quote_accept (b : bool) (rest : string) (cs : captures) :
  m true (Opt (Class quoteChar)) b rest cs accept = Some cs.
Proof.
  unfold Opt. cbn [m]. destruct rest as [|d r]; [reflexivity|].
  destruct (classMatch true quoteChar d); reflexivity.
Qed.

(** The group [(\w+)] captures a whole name when what follows is not a
    word character. *)
Lemma group_word (t rest : string) (b : bool) (cs x : captures)
  (k : continuation) :
  isWordName t = true -> endsWord rest = true ->
  (forall b', k b' rest ((1, t) :: cs) = Some x) ->
  m true (Group 1 (Plus (Class word))) b (String.append t rest) cs k = Some x.
Proof.
  unfold isWordName. intros Ht Hend Hk. apply andb_prop in Ht as [Hne Hall].
  destruct t as [|c0 t']; [discriminate Hne|]. clear Hne.
  cbn [SnakeCase.allOf] in Hall. apply andb_prop in Hall as [Hc0 Hall].
  unfold Plus. rewrite append_cons. cbn [m]. rewrite word_classMatch, Hc0.
  apply word_star_greedy; [exact Hend | | exact Hall | rewrite length_append; lia].
  intros b'. rewrite <- append_cons, consumed_append. apply Hk.
Qed.

Lemma isWordName_head (t : string) :
  isWordName t = true ->
  exists c0 t', t = String c0 t' /\ word c0 = true.
Proof.
  unfold isWordName. intros Ht. apply andb_prop in Ht as [Hne Hall].
  destruct t as [|c0 t']; [discriminate Hne|].
  cbn [SnakeCase.allOf] in Hall. apply andb_prop in Hall as [Hc0 _]. eauto.
Qed.

Lemma enable_match (t post : string) :
  isWordName t = true ->
  m true rlsPattern true (enableText t post) [] accept = Some [(1, t)].
Proof.
  intros Ht. destruct (isWordName_head t Ht) as (c0 & t' & Heq & Hc0).
  change (enableText t post)
    with (String.append "ALTER" (String " " (String.append "TABLE" (String " "
            (String.append t (String " " (String.append "ENABLE" (String " "
            (String.append "ROW" (String " " (String.append "LEVEL" (String " "
            (String.append "SECURITY" post))))))))))))).
  unfold rlsPattern.
  rewrite m_seq, lit_icase. cbv beta.
  rewrite m_seq; erewrite ws_single; [cbv beta | reflexivity | reflexivity].
  rewrite m_seq, lit_icase. cbv beta.
  rewrite m_seq.
  erewrite ws_single;
    [|rewrite Heq, append_cons; reflexivity | apply word_not_space, Hc0].
  cbv beta. rewrite m_seq.
  erewrite opt_quote_skip;
    [|rewrite Heq, append_cons; reflexivity | apply word_not_quote, Hc0].
  cbv beta. rewrite m_seq.
  apply group_word; [exact Ht | reflexivity|]. intros b'.
  rewrite m_seq; erewrite opt_quote_skip; [cbv beta | reflexivity | reflexivity].
  rewrite m_seq; erewrite ws_single; [cbv beta | reflexivity | reflexivity].
  rewrite m_seq, lit_icase. cbv beta.
  rewrite m_seq; erewrite ws_single; [cbv beta | reflexivity | reflexivity].
  rewrite m_seq, lit_icase. cbv beta.
  rewrite m_seq; erewrite ws_single; [cbv beta | reflexivity | reflexivity].
  rewrite m_seq, lit_icase. cbv beta.
  rewrite m_seq; erewrite ws_single; [cbv beta | reflexivity | reflexivity].
  rewrite lit_icase. reflexivity.
Qed.

(** A lazy run of [.] steps over a name: the rest of the pattern asks for
    white space, which a word character is not. *)
Lemma lazy_dot_skip (k : continuation) (x : captures) (rest : string)
  (cs : captures) :
  (forall b, k b rest cs = Some x) ->
  (forall b c r, word c = true -> k b (String c r) cs = None) ->
  forall u n b,
    SnakeCase.allOf word u = true -> String.length u <= n ->
    starLoop false (m true (Class dot)) k n b (String.append u rest) cs = Some x.
Proof.
  intros Hk Hskip. induction u as [|c u IH]; intros n b Hall Hlen.
  - rewrite append_empty. destruct n as [|n]; cbn [starLoop]; [apply Hk|].
    rewrite Hk. reflexivity.
  - destruct n as [|n]; [cbn [String.length] in Hlen; lia|].
    rewrite append_cons. cbn [starLoop].
    cbn [SnakeCase.allOf] in Hall. apply andb_prop in Hall as [Hc Hall].
    rewrite (Hskip _ _ _ Hc). cbn [orElse m]. rewrite (word_is_dot _ Hc).
    assert (Hlt : Nat.ltb (String.length (String.append u rest))
                    (String.length (String c (String.append u rest))) = true)
      by (apply Nat.ltb_lt; cbn [String.length]; lia).
    rewrite Hlt. apply IH; [exact Hall | cbn [String.length] in Hlen; lia].
Qed.

Lemma policy_match (p t post : string) :
  isWordName p = true -> isWordName t = true -> endsWord post = true ->
  m true policyPattern true (policyText p t post) [] accept = Some [(1, t)].
Proof.
  intros Hp Ht Hpost.
  destruct (isWordName_head p Hp) as (p0 & p' & Hpeq & Hp0).
  destruct (isWordName_head t Ht) as (c0 & t' & Heq & Hc0).
  change (policyText p t post)
    with (String.append "CREATE" (String " " (String.append "POLICY" (String " "
            (String.append p (String " " (String.append "ON" (String " "
            (String.append t post))))))))).
  unfold policyPattern.
  rewrite m_seq, lit_icase. cbv beta.
  rewrite m_seq; erewrite ws_single; [cbv beta | reflexivity | reflexivity].
  rewrite m_seq, lit_icase. cbv beta.
  rewrite m_seq.
  erewrite ws_single;
    [|rewrite Hpeq, append_cons; reflexivity | apply word_not_space, Hp0].
  cbv beta. rewrite m_seq, m_star.
  unfold isWordName in Hp. apply andb_prop in Hp as [_ Hpall].
  apply lazy_dot_skip;
    [ | | exact Hpall | rewrite length_append; lia].
  - intros b. cbv beta.
    rewrite m_seq; erewrite ws_single; [cbv beta | reflexivity | reflexivity].
    rewrite m_seq, lit_icase. cbv beta.
    rewrite m_seq.
    erewrite ws_single;
      [|rewrite Heq, append_cons; reflexivity | apply word_not_space, Hc0].
    cbv beta. rewrite m_seq.
    erewrite opt_quote_skip;
      [|rewrite Heq, append_cons; reflexivity | apply word_not_quote, Hc0].
    cbv beta. rewrite m_seq.
    apply group_word; [exact Ht | exact Hpost|]. intros b'.
    apply opt_quote_accept.
  - intros b c r Hc. cbv beta. rewrite m_seq. apply ws_fail, word_not_space, Hc.
Qed.

Lemma exec_first (icase : bool) (r : regex) (s : string) (x : captures) :
  m icase r true s [] accept = Some x -> exec icase r s = Some x.
Proof.
  intros H. unfold exec. destruct s; cbn [execFrom]; rewrite H; reflexivity.
Qed.

Lemma captured_name (pattern : regex) (text t : string) :
  isWordName t = true ->
  m true pattern true text [] accept = Some [(1, t)] ->
  capturedTable pattern text = Some t.
Proof.
  intros Ht H. unfold capturedTable. rewrite (exec_first _ _ _ _ H).
  cbn [capture Nat.eqb]. unfold isWordName in Ht.
  apply andb_prop in Ht as [-> _]. reflexivity.
Qed.

Lemma rawSql_sqlCall (text : string) : rawSql (sqlCall text) = Some text.
Proof.
  unfold rawSql, sqlCall, Js.join. cbn [fold_right].
  rewrite append_empty_r. reflexivity.
Qed.

(** With the table in both sets, the exit pass has nothing to say about
    it. *)
Lemma covered_table_silent (options : Options) (st : State) (t : string) :
  t ∈ tablesWithRLS st -> t ∈ tablesWithPolicies st ->
  List.filter (aboutTable t) (Program_exit options st) = [].
Proof.
  intros Hr Hp. apply RlsExit.filter_none. intros d Hd.
  unfold Program_exit in Hd. apply in_flat_map in Hd as ([t' n] & _ & Hd).
  rewrite (RlsExit.aboutTable_iff t t' d (RlsExit.checkTable_about _ _ _ _ _ Hd)).
  apply String.eqb_neq. intros ->. revert Hd. unfold checkTable.
  destruct (isSensitiveTable options t); [|intros []].
  rewrite (bool_decide_eq_true_2 _ Hr), (bool_decide_eq_true_2 _ Hp).
  intros [].
Qed.

(** X6.  The two statements the rule recognises.  For a table name and a
    policy name made of word characters,
    [sql(`ALTER TABLE t ENABLE ROW LEVEL SECURITY...`)] enables row security
    on [t] and [sql(`CREATE POLICY p ON t...`)] creates a policy on [t];
    a unit that holds both calls gets no diagnostic about [t]. *)
Theorem recognised_statements_cover_table
  (options : Options) (program : node) (t p post post' : string) :
  isWordName t = true -> isWordName p = true -> endsWord post' = true ->
  enabledBy (sqlCall (enableText t post)) = Some t
  /\ policedBy (sqlCall (policyText p t post')) = Some t
  /\ (In (sqlCall (enableText t post)) (nodes program) ->
      In (sqlCall (policyText p t post')) (nodes program) ->
      List.filter (aboutTable t) (requireRLSRule options program) = []).
Proof.
  intros Ht Hp Hpost.
  assert (He : enabledBy (sqlCall (enableText t post)) = Some t).
  { unfold enabledBy. rewrite rawSql_sqlCall.
    apply captured_name, enable_match; exact Ht. }
  assert (Hc : policedBy (sqlCall (policyText p t post')) = Some t).
  { unfold policedBy. rewrite rawSql_sqlCall.
    apply captured_name; [exact Ht|]. apply policy_match; assumption. }
  split; [exact He|]. split; [exact Hc|]. intros Hin1 Hin2.
  unfold requireRLSRule.
  destruct (RlsCollect.pass_spec (nodes program) initial) as (_ & Hr & Hpol).
  rewrite <- RlsCollect.collect_pass in Hr, Hpol.
  apply covered_table_silent.
  - rewrite Hr. apply elem_of_union_r. unfold enabled.
    apply (RlsExit.union_list_setOf enabledBy). eauto.
  - rewrite Hpol. apply elem_of_union_r. unfold policed.
    apply (RlsExit.union_list_setOf policedBy). eauto.
Qed.

Lemma recognised_statements_cover_table_witness :
  enabledBy (sqlCall "ALTER TABLE users ENABLE ROW LEVEL SECURITY")
  = Some "users"
  /\ policedBy (sqlCall "CREATE POLICY own_rows ON users FOR SELECT")
     = Some "users".
Proof.
  destruct (recognised_statements_cover_table Fixtures.defaultRlsOptions
              (Program []) "users" "own_rows" "" " FOR SELECT"
              eq_refl eq_refl eq_refl) as (He & Hp & _).
  split; [exact He | exact Hp].
Defined.

End RlsStatementFacts.

(** ** require-rls-enabled: where the diagnostics sit, and what is not a
    statement *)

Module RlsLocation.

Import RequireRLS RlsStatements.

Lemma mapSet_values (k : string) (v : node) (mp : list (string * node))
  (e : string * node) :
  In e (mapSet k v mp) -> e = (k, v) \/ In e mp.
Proof.
  induction mp as [|[k0 v0] mp IH]; cbn [mapSet].
  - intros [<-|[]]. left. reflexivity.
  - destruct (String.eqb k k0).
    + intros [<-|H]; [left; reflexivity | right; right; exact H].
    + intros [<-|H]; [right; left; reflexivity|].
      destruct (IH H) as [->|H']; [left; reflexivity | right; right; exact H'].
Qed.

Lemma insertAll_values (es mp : list (string * node)) (e : string * node) :
  In e (insertAll es mp) -> In e es \/ In e mp.
Proof.
  unfold insertAll. revert mp.
  induction es as [|[k0 v0] es IH]; intros mp; cbn [fold_left fst snd].
  - auto.
  - intros H. destruct (IH _ H) as [H'|H']; [left; right; exact H'|].
    destruct (mapSet_values _ _ _ _ H') as [->|H'']; [left; left; reflexivity|].
    right. exact H''.
Qed.

Lemma declarations_values (ns : list node) (t : string) (n : node) :
  In (t, n) (declarations ns) -> In n ns /\ declaredName n = Some t.
Proof.
  unfold declarations. intros H. apply in_flat_map in H as (n' & Hin & H).
  destruct (declaredName n') as [t'|] eqn:Hn; [|destruct H].
  destruct H as [[= <- <-]|[]]. auto.
Qed.

Lemma tablesFound_declared (program : node) (t : string) (n : node) :
  In (t, n) (tablesFound (collect program)) ->
  In n (nodes program) /\ declaredName n = Some t.
Proof.
  rewrite RlsCollect.collect_pass.
  destruct (RlsCollect.pass_spec (nodes program) initial) as (-> & _ & _).
  intros H. apply insertAll_values in H as [H|[]].
  apply declarations_values, H.
Qed.

(** X7.  Every diagnostic of the rule sits on a table declaration of the
    unit, speaks of the name that declaration declares, and that name is
    sensitive; its message is one of the two the rule has. *)
Theorem diagnostics_sit_on_declarations
  (options : Options) (program : node) (d : Diagnostic) :
  In d (requireRLSRule options program) ->
  exists t,
    In (d_node d) (nodes program) /\
    declaredName (d_node d) = Some t /\
    isSensitiveTable options t = true /\
    (d = missingRLS (d_node d) t \/ d = missingPolicy (d_node d) t).
Proof.
  unfold requireRLSRule, Program_exit. intros Hd.
  apply in_flat_map in Hd as ([t n] & Hentry & Hd).
  apply tablesFound_declared in Hentry as [Hin Hname].
  exists t. unfold checkTable in Hd.
  destruct (isSensitiveTable options t) eqn:Hs; [|destruct Hd].
  destruct (negb (bool_decide (t ∈ tablesWithRLS (collect program)))).
  - destruct Hd as [<-|[]]. cbn [d_node]. auto.
  - destruct (negb (bool_decide (t ∈ tablesWithPolicies (collect program))));
      [|destruct Hd].
    destruct Hd as [<-|[]]. cbn [d_node]. auto.
Qed.

Lemma diagnostics_sit_on_declarations_witness :
  exists t,
    In (Fixtures.table "users" []) (nodes (Fixtures.tableUnit "users" [])) /\
    declaredName (Fixtures.table "users" []) = Some t /\
    isSensitiveTable Fixtures.defaultRlsOptions t = true /\
    (missingRLS (Fixtures.table "users" []) "users"
     = missingRLS (Fixtures.table "users" []) t \/
     missingRLS (Fixtures.table "users" []) "users"
     = missingPolicy (Fixtures.table "users" []) t).
Proof.
  exact (diagnostics_sit_on_declarations Fixtures.defaultRlsOptions
           (Fixtures.tableUnit "users" [])
           (missingRLS (Fixtures.table "users" []) "users")
           (or_introl eq_refl)).
Defined.

Lemma enabledBy_call (n : node) (t : string) :
  enabledBy n = Some t ->
  exists quasis es rest,
    n = CallExpression (Identifier "sql") (TemplateLiteral quasis es :: rest).
Proof.
  unfold enabledBy, rawSql.
  destruct n as [| | | |callee args| | | | | | | | | | | | |]; try discriminate.
  destruct callee; try discriminate.
  destruct args as [|a rest]; try discriminate.
  destruct a; try discriminate.
  destruct (String.eqb name "sql") eqn:Hname; [|discriminate].
  apply String.eqb_eq in Hname. subst name. eauto.
Qed.

Lemma tagged_not_enabling (text : string) (n : node) :
  In n (nodes (bareStatement text)) \/ In n (nodes (executedStatement text)) ->
  enabledBy n = None.
Proof.
  intros [H|H]; cbn in H;
    repeat (destruct H as [<-|H]; [reflexivity|]); destruct H.
Qed.

(** X8.  A tagged template is not a call.  In a unit made of one table
    declaration followed by raw statements written as tagged templates,
    bare or handed to [await db.execute(...)], no statement enables row
    security, whatever its text: a sensitive table is reported as missing
    row security. *)
Theorem tagged_templates_are_not_statements
  (options : Options) (decl : node) (t : string)
  (bare executed : list string) :
  declaredName decl = Some t ->
  isSensitiveTable options t = true ->
  (forall n, In n (nodes decl) -> enabledBy n = None) ->
  let body := ExpressionStatement decl
              :: map bareStatement bare ++ map executedStatement executed in
  exists n,
    declaredName n = Some t /\
    List.filter (aboutTable t) (requireRLSRule options (Program body))
    = [missingRLS n t].
Proof.
  intros Hdecl Hsens Hquiet body.
  set (st := collect (Program body)).
  assert (Hnone : forall n, In n (nodes (Program body)) -> enabledBy n = None).
  { intros n. rewrite nodes_program. intros [<-|Hin]; [reflexivity|].
    unfold body in Hin. cbn [flat_map] in Hin. rewrite nodes_statement in Hin.
    apply in_app_or in Hin as [[<-|Hin]|Hin]; [reflexivity | apply Hquiet, Hin|].
    rewrite flat_map_app in Hin.
    apply in_app_or in Hin as [Hin|Hin];
      apply in_flat_map in Hin as (stmt & Hstmt & Hin);
      apply in_map_iff in Hstmt as (text & <- & _);
      apply (tagged_not_enabling text); auto. }
  destruct (RlsCollect.pass_spec (nodes (Program body)) initial)
    as (Ht & Hr & _).
  rewrite <- RlsCollect.collect_pass in Ht, Hr. fold st in Ht, Hr.
  assert (Hnot : t ∉ tablesWithRLS st).
  { rewrite Hr. cbn [initial tablesWithRLS]. intros Hin.
    apply elem_of_union in Hin as [Hin|Hin];
      [revert Hin; apply not_elem_of_empty|].
    apply (RlsExit.union_list_setOf enabledBy) in Hin as (n & Hn & He).
    rewrite (Hnone n Hn) in He. discriminate He. }
  assert (Hkey : In t (map fst (tablesFound st))).
  { rewrite Ht. apply RlsExit.insertAll_keys. left.
    apply RlsExit.declarations_keys. exists decl. split; [|exact Hdecl].
    rewrite nodes_program. right. unfold body. cbn [flat_map].
    rewrite nodes_statement. right. apply in_or_app. left.
    unfold nodes. destruct decl; left; reflexivity. }
  apply in_map_iff in Hkey as ([t' n] & Heq & Hentry).
  cbn [fst] in Heq. subst t'. exists n. split.
  - apply (tablesFound_declared (Program body)), Hentry.
  - unfold requireRLSRule, Program_exit. fold st.
    rewrite (RlsExit.filter_exit options st _ t n); [| |exact Hentry].
    + unfold checkTable. rewrite Hsens, (bool_decide_eq_false_2 _ Hnot).
      reflexivity.
    + rewrite Ht. apply RlsExit.insertAll_NoDup. constructor.
Qed.

Lemma tagged_templates_are_not_statements_witness :
  exists n,
    declaredName n = Some "users" /\
    List.filter (aboutTable "users")
      (requireRLSRule Fixtures.defaultRlsOptions
         (Program
            [ExpressionStatement (Fixtures.table "users" []);
             bareStatement "ALTER TABLE users ENABLE ROW LEVEL SECURITY";
             executedStatement "CREATE POLICY own_rows ON users"]))
    = [missingRLS n "users"].
Proof.
  apply (tagged_templates_are_not_statements Fixtures.defaultRlsOptions
           (Fixtures.table "users" []) "users"
           ["ALTER TABLE users ENABLE ROW LEVEL SECURITY"]
           ["CREATE POLICY own_rows ON users"] eq_refl eq_refl).
  intros n Hin. cbn in Hin.
  repeat (destruct Hin as [<-|Hin]; [reflexivity|]). destruct Hin.
Defined.

End RlsLocation.

(** ** enforce-snake-case-naming: what is reported *)

Module SnakeCaseReports.

Import SnakeCase.

(** X9.  What the rule reports on a table declaration with a literal name
    and an object of columns.  The table name is reported unless it is a
    lower-case letter followed by lower-case letters, digits and
    underscores; a column is reported under its property key, on the same
    test, unless the key is [createdAt] or [updatedAt].  The two exceptions
    hold for column keys only; nothing else is reported. *)
Theorem snake_case_reports
  (ctor name : string) (props rest anc : list node) (d : Diagnostic) :
  let tableNameArg := Literal (LString name) in
  let n := CallExpression (Identifier ctor)
             (tableNameArg :: ObjectExpression props :: rest) in
  isTableCall n = true ->
  (In d (CallExpression_handler n anc) <->
   (d = useSnakeCase tableNameArg name /\ isSegment name = false)
   \/ (exists key value,
         In (Property (Identifier key) value) props /\
         d = useSnakeCase (Identifier key) key /\
         isSegment key = false /\
         ~ In key ["createdAt"; "updatedAt"])).
Proof.
  intros tableNameArg n Htable. subst tableNameArg n.
  unfold CallExpression_handler. rewrite Htable.
  rewrite in_app_iff. unfold checkTableName, checkColumns.
  cbn [arg nth_error]. rewrite RegexFacts.isValidSnakeCase_spec.
  match goal with |- (?A \/ ?B) <-> (?C \/ ?D) =>
    enough (HAC : (A <-> C) /\ (B <-> D)) by tauto
  end.
  split.
  - destruct (isSegment name); cbn [negb]; split.
    + intros [].
    + intros [_ H]. discriminate H.
    + intros [<-|[]]. auto.
    + intros [-> _]. left. reflexivity.
  - rewrite in_flat_map. split.
    + intros (prop & Hprop & Hd). unfold checkColumn in Hd.
      destruct prop as [| | | | | |key value| | | | | | | | | | |];
        try destruct Hd.
      destruct key as [key| | | | | | | | | | | | | | | | |]; try destruct Hd.
      rewrite RegexFacts.isValidSnakeCase_spec in Hd.
      destruct (isSegment key) eqn:Hseg; [destruct Hd|].
      destruct (Js.arrayIncludes allowedCamelCase key) eqn:Hallowed;
        [destruct Hd|].
      destruct Hd as [<-|[]]. exists key, value.
      repeat split; [exact Hprop | exact Hseg|].
      intros Hin. apply JsFacts.arrayIncludes_spec in Hin.
      unfold allowedCamelCase in Hallowed. congruence.
    + intros (key & value & Hprop & -> & Hseg & Hnot).
      exists (Property (Identifier key) value). split; [exact Hprop|].
      unfold checkColumn. rewrite RegexFacts.isValidSnakeCase_spec, Hseg.
      destruct (Js.arrayIncludes allowedCamelCase key) eqn:Hallowed.
      * exfalso. apply Hnot, JsFacts.arrayIncludes_spec, Hallowed.
      * left. reflexivity.
Qed.

Lemma snake_case_reports_witness :
  In (useSnakeCase (Literal (LString "createdAt")) "createdAt")
     (CallExpression_handler
        (CallExpression (Identifier "pgTable")
           [Literal (LString "createdAt");
            ObjectExpression [Fixtures.column "createdAt" "timestamp" []]])
        []).
Proof.
  apply (proj2 (snake_case_reports "pgTable" "createdAt"
                  [Fixtures.column "createdAt" "timestamp" []] [] []
                  (useSnakeCase (Literal (LString "createdAt")) "createdAt")
                  eq_refl)).
  left. split; reflexivity.
Defined.

End SnakeCaseReports.

(** ** enforce-index-naming: the [uk] prefix and the table in force *)

Module IndexTables.

Import IndexNaming.

(** X10.  The first gate lets the prefix [uk] through, the second gate
    never does: with a table name known, a name that starts with [uk_] is
    reported on each of the three index constructors, while with no table
    known a name [uk_...] of the generic shape is accepted. *)
Theorem uk_prefix_needs_no_table
  (callee more tableName : string) (rest : list node) :
  let indexNameArg := Literal (LString (String.append "uk_" more)) in
  let n := CallExpression (Identifier callee) (indexNameArg :: rest) in
  In callee ["index"; "uniqueIndex"; "unique"] ->
  (tableName <> EmptyString ->
   checkIndexName n (Some tableName)
   = [invalidIndexName indexNameArg (String.append "uk_" more)])
  /\ (Segments more -> checkIndexName n None = []).
Proof.
  intros indexNameArg n Hcallee. subst indexNameArg n.
  assert (Hidx : isIndexCallee callee = true).
  { destruct Hcallee as [<-|[<-|[<-|[]]]]; reflexivity. }
  split.
  - intros Hname. unfold checkIndexName. rewrite Hidx.
    cbn [arg nth_error].
    destruct (Regex.test false validPattern (String.append "uk_" more));
      [|reflexivity].
    cbn [negb].
    replace (Js.truthy tableName) with true
      by (destruct tableName; [congruence | reflexivity]).
    replace (Js.startsWith (String.append "uk_" more)
               (expectedPrefix callee tableName)) with false; [reflexivity|].
    unfold expectedPrefix. destruct (String.eqb callee "index"); reflexivity.
  - intros Hmore. unfold checkIndexName. rewrite Hidx.
    cbn [arg nth_error].
    replace (Regex.test false validPattern (String.append "uk_" more))
      with true; [reflexivity|].
    symmetry. apply RegexFacts.validPattern_spec.
    exists "uk", more. repeat split; [simpl; auto | exact Hmore].
Qed.

Lemma uk_prefix_needs_no_table_witness :
  checkIndexName
    (CallExpression (Identifier "unique") [Fixtures.str "uk_users_email"])
    (Some "users")
  = [invalidIndexName (Fixtures.str "uk_users_email") "uk_users_email"].
Proof.
  assert (Hname : "users" <> EmptyString) by discriminate.
  exact (proj1 (uk_prefix_needs_no_table "unique" "users_email" "users" []
                  (or_intror (or_intror (or_introl eq_refl)))) Hname).
Defined.

Lemma trackTableName_declared (n : node) (st : State) :
  trackTableName n st
  = match RequireRLS.declaredName n with Some t => Some t | None => st end.
Proof.
  unfold trackTableName, RequireRLS.declaredName.
  destruct (isTableCall n); [|reflexivity].
  destruct n as [| | | |callee args| | | | | | | | | | | | |]; try reflexivity.
  destruct args as [|a args]; [reflexivity|].
  destruct a as [|[]| | | | | | | | | | | | | | | |]; reflexivity.
Qed.

Lemma last_cons {A : Type} (a : A) (l : list A) (d : A) :
  List.last (a :: l) d = List.last l a.
Proof.
  revert a d. induction l as [|b l IH]; intros a d; [reflexivity|].
  change (List.last (a :: b :: l) d) with (List.last (b :: l) d).
  rewrite (IH b d), (IH b a). reflexivity.
Qed.

(** X11.  The table name the rule holds after a run of nodes is the name
    of the last table declaration with a literal name among them, wherever
    it stands; it is never cleared, and before the first such declaration
    it is what it was. *)
Theorem table_in_force_is_last_declared
  (ns : list node) (st : State) (ds : list Diagnostic) :
  fst (pass ns (st, ds))
  = List.last (map (fun e => Some (fst e)) (RequireRLS.declarations ns)) st.
Proof.
  rewrite IndexNames.pass_state. revert st.
  induction ns as [|n ns IH]; intros st; [reflexivity|].
  cbn [fold_left]. rewrite IH, trackTableName_declared.
  unfold RequireRLS.declarations. cbn [flat_map].
  destruct (RequireRLS.declaredName n) as [t|]; [|reflexivity].
  cbn [app map fst]. rewrite last_cons. reflexivity.
Qed.

End IndexTables.

(** ** require-timestamp-columns: the two lists *)

Module TimestampLists.

Import TimestampColumns.

Lemma handler_reports (options : Options) (n : node) (anc : list node)
  (d : Diagnostic) :
  In d (CallExpression_handler options n anc) ->
  exists t,
    d = missingTimestamps n t /\
    RequireRLS.declaredName n = Some t /\
    Js.arrayIncludes (ignoreTablesOf options) t = false /\
    (forall ts, checkTables options = Some ts -> Js.arrayIncludes ts t = true).
Proof.
  unfold CallExpression_handler, RequireRLS.declaredName.
  destruct n as [| | | |callee args| | | | | | | | | | | | |]; try intros [].
  destruct (isTableCall (CallExpression callee args)); [|intros []].
  destruct args as [|a args]; [intros []|]. cbn [arg nth_error].
  destruct a as [|[t| | |]| | | | | | | | | | | | | | | |]; try intros [].
  destruct (Js.arrayIncludes (ignoreTablesOf options) t) eqn:Hignore;
    [intros []|].
  destruct (checkTables options) as [ts|] eqn:Hcheck.
  - destruct (Js.arrayIncludes ts t) eqn:Hts; cbn [negb]; [|intros []].
    destruct args as [|[] args]; try (intros []; fail).
    match goal with |- context [if ?b then _ else _] => destruct b end;
      [|intros []].
    intros [<-|[]]. exists t. repeat split; try assumption.
    intros ts' [= <-]. exact Hts.
  - destruct args as [|[] args]; try (intros []; fail).
    match goal with |- context [if ?b then _ else _] => destruct b end;
      [|intros []].
    intros [<-|[]]. exists t. repeat split; try assumption.
    intros ts' H. discriminate H.
Qed.

(** X12.  Every diagnostic of the rule sits on a table declaration of the
    unit and names the table it declares; that table is not on the ignore
    list and, when a check list is given, is on it. *)
Theorem timestamp_reports_respect_lists
  (options : Options) (program : node) (d : Diagnostic) :
  In d (timestampColumnsRule options program) ->
  exists t,
    d = missingTimestamps (d_node d) t /\
    In (d_node d) (nodes program) /\
    RequireRLS.declaredName (d_node d) = Some t /\
    ~ In t (ignoreTablesOf options) /\
    (forall ts, checkTables options = Some ts -> In t ts).
Proof.
  rewrite Timestamps.rule_diagnosticsOf. unfold diagnosticsOf.
  intros Hd. apply in_flat_map in Hd as (n & Hn & Hd).
  apply handler_reports in Hd as (t & -> & Hname & Hignore & Hcheck).
  exists t. cbn [d_node]. repeat split; try assumption.
  - intros Hin. apply JsFacts.arrayIncludes_spec in Hin. congruence.
  - intros ts Hts. apply JsFacts.arrayIncludes_spec, Hcheck, Hts.
Qed.

Lemma timestamp_reports_respect_lists_witness :
  exists t,
    missingTimestamps (Fixtures.table "users" []) "users"
    = missingTimestamps (Fixtures.table "users" []) t /\
    In (Fixtures.table "users" []) (nodes (Fixtures.tableUnit "users" [])) /\
    RequireRLS.declaredName (Fixtures.table "users" []) = Some t /\
    ~ In t (ignoreTablesOf Fixtures.defaultTimestampOptions) /\
    (forall ts, checkTables Fixtures.defaultTimestampOptions = Some ts -> In t ts).
Proof.
  exact (timestamp_reports_respect_lists Fixtures.defaultTimestampOptions
           (Fixtures.tableUnit "users" [])
           (missingTimestamps (Fixtures.table "users" []) "users")
           (or_introl eq_refl)).
Defined.

End TimestampLists.

(** ** prefer-uuid-primary-key: where [.primaryKey()] must stand *)

Module PrimaryKeys.

Import PreferUuidPrimaryKey ColumnShapes.

Lemma rule_findingsIn (program : node) :
  preferUuidRule program = findingsIn program.
Proof.
  unfold preferUuidRule, findingsIn, nodes.
  induction (traverse [] program) as [|v vs IH]; simpl; [reflexivity|].
  rewrite IH. reflexivity.
Qed.

Lemma nodes_member (o p : node) :
  nodes (MemberExpression o p) = MemberExpression o p :: nodes o ++ nodes p.
Proof.
  unfold nodes at 1. cbn [traverse map fst].
  rewrite map_app, !nodes_under. reflexivity.
Qed.

Lemma flat_map_nil {A B : Type} (f : A -> list B) (l : list A) :
  (forall x, In x l -> f x = []) -> flat_map f l = [].
Proof.
  induction l as [|x l IH]; intros H; [reflexivity|].
  cbn [flat_map]. rewrite (H x (or_introl eq_refl)), IH; [reflexivity|].
  intros y Hy. apply H. right. exact Hy.
Qed.

Lemma findingsIn_callOn (recv : node) (sg : segment) :
  (forall a, In a (snd sg) -> findingsIn a = []) ->
  findingsIn (callOn recv sg)
  = CallExpression_handler (callOn recv sg) ++ findingsIn recv.
Proof.
  intros Hquiet. unfold findingsIn at 1, callOn.
  rewrite nodes_call, nodes_member. cbn [flat_map app].
  rewrite !flat_map_app. cbn [nodes traverse map fst flat_map].
  rewrite flat_map_flat_map.
  fold (findingsIn recv).
  rewrite (flat_map_nil _ (snd sg)) by exact Hquiet.
  cbn [CallExpression_handler app]. rewrite !app_nil_r. reflexivity.
Qed.

Lemma chain_findings (rest : list segment) :
  forall recv,
    notConstructorCall recv = true ->
    (forall sg a, In sg rest -> In a (snd sg) -> findingsIn a = []) ->
    findingsIn (chain recv rest) = findingsIn recv.
Proof.
  induction rest as [|sg rest IH]; intros recv Hrecv Hquiet; [reflexivity|].
  change (chain recv (sg :: rest)) with (chain (callOn recv sg) rest).
  rewrite IH; [| reflexivity | intros sg' a Hsg; apply Hquiet; right; exact Hsg].
  rewrite findingsIn_callOn by (intros a; apply Hquiet; left; reflexivity).
  unfold callOn. destruct recv as [| | | |callee args| | | | | | | | | | | | |];
    try reflexivity.
  destruct callee; try reflexivity. discriminate Hrecv.
Qed.

(** X13.  On a column [ctor(args).m1()...mk()] whose arguments hold
    nothing the rule reports, there is a finding only when [.primaryKey()]
    is the first modifier and the constructor is [serial] or [integer]:
    one finding, on that call, with the suggested text built from the
    declared name ([id] when the first argument is not a string).  A
    [.primaryKey()] further along the chain is not reported. *)
Theorem primary_key_must_follow_constructor
  (ctor : string) (args : list node) (mods : list segment) :
  (forall a, In a args -> findingsIn a = []) ->
  (forall sg a, In sg mods -> In a (snd sg) -> findingsIn a = []) ->
  preferUuidRule (columnValue ctor args mods)
  = match mods with
    | [] => []
    | first :: _ =>
        if String.eqb (fst first) "primaryKey" && isSerial ctor
        then [useUUID (callOn (CallExpression (Identifier ctor) args) first)
                (columnNameOf args)]
        else []
    end.
Proof.
  intros Hargs Hmods. rewrite rule_findingsIn. unfold columnValue.
  assert (Hbase : findingsIn (CallExpression (Identifier ctor) args) = []).
  { unfold findingsIn. rewrite nodes_call. cbn [flat_map app nodes traverse map fst].
    rewrite flat_map_flat_map. apply flat_map_nil, Hargs. }
  destruct mods as [|first rest]; [exact Hbase|].
  change (chain (CallExpression (Identifier ctor) args) (first :: rest))
    with (chain (callOn (CallExpression (Identifier ctor) args) first) rest).
  rewrite chain_findings;
    [| reflexivity | intros sg a Hsg; apply Hmods; right; exact Hsg].
  rewrite findingsIn_callOn by (intros a; apply Hmods; left; reflexivity).
  rewrite Hbase, app_nil_r. unfold callOn. cbn [CallExpression_handler].
  reflexivity.
Qed.

Lemma primary_key_must_follow_constructor_witness :
  preferUuidRule
    (columnValue "serial" [Fixtures.str "id"]
       [("notNull", []); ("primaryKey", [])])
  = [] /\
  map suggest
    (preferUuidRule
       (columnValue "serial" [Fixtures.str "id"]
          [("primaryKey", []); ("notNull", [])]))
  = [[ {| s_messageId := "useUUID";
          s_node := columnValue "serial" [Fixtures.str "id"] [("primaryKey", [])];
          s_text := "uuid('id').defaultRandom().primaryKey()" |} ]].
Proof.
  assert (Hargs : forall a, In a [Fixtures.str "id"] -> findingsIn a = []).
  { intros a [<-|[]]. reflexivity. }
  split.
  - apply (primary_key_must_follow_constructor "serial" [Fixtures.str "id"]
             [("notNull", []); ("primaryKey", [])] Hargs).
    intros sg a [<-|[<-|[]]] [].
  - rewrite (primary_key_must_follow_constructor "serial" [Fixtures.str "id"]
               [("primaryKey", []); ("notNull", [])] Hargs).
    + reflexivity.
    + intros sg a [<-|[<-|[]]] [].
Defined.

End PrimaryKeys.

(** ** prevent-rls-bypass: what counts as a justification *)

Module BypassComments.

Import Regex PreventRLSBypass.

Lemma all_ascii (c : ascii) : In c (map ascii_of_nat (seq 0 256)).
Proof.
  rewrite <- (ascii_nat_embedding c). apply in_map, in_seq.
  pose proof (nat_ascii_bounded c). lia.
Qed.

(** Under the [i] flag two characters match when their lower-case forms
    agree. *)
Lemma chrMatch_lower (c d : ascii) :
  chrMatch true c d = Ascii.eqb (Js.lowerChar c) (Js.lowerChar d).
Proof.
  assert (H : forallb
                (fun c => forallb
                   (fun d => Bool.eqb (chrMatch true c d)
                               (Ascii.eqb (Js.lowerChar c) (Js.lowerChar d)))
                   (map ascii_of_nat (seq 0 256)))
                (map ascii_of_nat (seq 0 256)) = true)
    by (vm_compute; reflexivity).
  rewrite forallb_forall in H. specialize (H c (all_ascii c)).
  rewrite forallb_forall in H. specialize (H d (all_ascii d)).
  apply Bool.eqb_prop in H. exact H.
Qed.

Lemma lit_accept_icase (p : string) :
  forall b s,
    m true (Lit p) b s [] accept
    = if Js.startsWith (Js.toLowerCase s) (Js.toLowerCase p)
      then Some [] else None.
Proof.
  induction p as [|c p IH]; intros b s; [reflexivity|].
  cbn [Lit m Js.toLowerCase]. destruct s as [|d s]; [reflexivity|].
  cbn [Js.toLowerCase Js.startsWith]. rewrite chrMatch_lower.
  destruct (Ascii.eqb (Js.lowerChar c) (Js.lowerChar d)); [apply IH | reflexivity].
Qed.

Lemma execFrom_lit (p : string) :
  forall s b,
    execFrom true (Lit p) b s
    = if Js.includes (Js.toLowerCase s) (Js.toLowerCase p)
      then Some [] else None.
Proof.
  induction s as [|d s IH]; intros b; cbn [execFrom];
    rewrite lit_accept_icase; cbn [Js.toLowerCase Js.includes].
  - destruct (Js.startsWith _ _); reflexivity.
  - rewrite IH. destruct (Js.startsWith _ _); reflexivity.
Qed.

(** A one-word reason is looked for anywhere in the comment, letter case
    aside. *)
Lemma test_lit_icase (p s : string) :
  test true (Lit p) s = Js.includes (Js.toLowerCase s) (Js.toLowerCase p).
Proof.
  unfold test, exec. rewrite execFrom_lit.
  destruct (Js.includes _ _); reflexivity.
Qed.

(** X14.  A comment before the node justifies a bypass as soon as it
    contains, letter case aside and even inside a longer word, one of
    [security], [admin], [migration] and [cron].  With such a comment the
    call handler reports nothing on the node, and the member handler
    reports nothing but bypass indicators. *)
Theorem keyword_comment_justifies
  (sourceCode : SourceCode) (v : visit) (comment keyword : string) :
  In comment (getCommentsBefore sourceCode v) ->
  In keyword ["security"; "admin"; "migration"; "cron"] ->
  Js.includes (Js.toLowerCase comment) keyword = true ->
  hasValidBypassComment sourceCode v = true
  /\ CallExpression_handler sourceCode v = []
  /\ (forall d, In d (MemberExpression_handler sourceCode v) ->
        messageId d = "bypassDetected").
Proof.
  intros Hcomment Hkeyword Hincludes.
  assert (Hvalid : hasValidBypassComment sourceCode v = true).
  { unfold hasValidBypassComment. apply existsb_exists.
    exists comment. split; [exact Hcomment|].
    apply existsb_exists. exists (Lit keyword). split.
    - unfold validBypassReasons.
      destruct Hkeyword as [<-|[<-|[<-|[<-|[]]]]]; simpl; auto 10.
    - rewrite test_lit_icase.
      replace (Js.toLowerCase keyword) with keyword; [exact Hincludes|].
      destruct Hkeyword as [<-|[<-|[<-|[<-|[]]]]]; reflexivity. }
  split; [exact Hvalid|]. split.
  - unfold CallExpression_handler. rewrite Hvalid. cbn [negb].
    rewrite !andb_false_r. destruct (fst v); reflexivity.
  - intros d. unfold MemberExpression_handler. rewrite Hvalid. cbn [negb].
    rewrite andb_false_r.
    destruct (fst v) as [| | |object property| | | | | | | | | | | | | |];
      try intros [].
    cbn [app]. destruct property as [name| | | | | | | | | | | | | | | | |];
      try intros [].
    destruct (Js.arrayIncludes bypassIndicators name); [|intros []].
    intros [<-|[]]. reflexivity.
Qed.

Lemma keyword_comment_justifies_witness :
  hasValidBypassComment
    {| getCommentsBefore := fun _ => [" see the ACRONYM list "] |}
    (Fixtures.serviceRoleAccess, [])
  = true.
Proof.
  exact (proj1 (keyword_comment_justifies
                  {| getCommentsBefore := fun _ => [" see the ACRONYM list "] |}
                  (Fixtures.serviceRoleAccess, [])
                  " see the ACRONYM list " "cron"
                  (or_introl eq_refl)
                  (or_intror (or_intror (or_intror (or_introl eq_refl))))
                  eq_refl)).
Defined.

End BypassComments.

(** ** prevent-rls-bypass: SECURITY DEFINER in raw statements *)

Module SecurityDefiner.

Import Regex PreventRLSBypass RlsStatements.

Lemma execFrom_suffix (icase : bool) (r : regex) (s : string) :
  (forall b, is_Some (m icase r b s [] accept)) ->
  forall pre b, is_Some (execFrom icase r b (String.append pre s)).
Proof.
  intros Hs. induction pre as [|c pre IH]; intros b.
  - rewrite RlsStatementFacts.append_empty.
    destruct s; cbn [execFrom]; apply RegexFacts.orElse_is_Some; left; apply Hs.
  - rewrite RlsStatementFacts.append_cons. cbn [execFrom].
    apply RegexFacts.orElse_is_Some. right. apply IH.
Qed.

Lemma securityDefiner_found (pre post : string) :
  test true securityDefiner
    (String.append pre (String.append "SECURITY DEFINER" post)) = true.
Proof.
  unfold test, exec.
  destruct (execFrom_suffix true securityDefiner
              (String.append "SECURITY DEFINER" post)) with (pre := pre) (b := true)
    as [x ->]; [|reflexivity].
  intros b.
  change (String.append "SECURITY DEFINER" post)
    with (String.append "SECURITY" (String " " (String.append "DEFINER" post))).
  unfold securityDefiner. change (Plus (Class space)) with RequireRLS.ws.
  rewrite RlsStatementFacts.m_seq, RlsStatementFacts.lit_icase. cbv beta.
  rewrite RlsStatementFacts.m_seq.
  erewrite RlsStatementFacts.ws_single; [|reflexivity | reflexivity].
  cbv beta. rewrite RlsStatementFacts.lit_icase. unfold accept. eauto.
Qed.

(** X15.  A raw statement whose text contains [SECURITY DEFINER] is
    reported when it is the call [sql(`...`)] and no comment before it
    justifies it.  Written as a tagged template, bare or handed to
    [await db.execute(...)], the same statement is never reported,
    whatever the comments. *)
Theorem security_definer_needs_a_call
  (sourceCode : SourceCode) (pre post : string) (anc : list node) :
  let text := String.append pre (String.append "SECURITY DEFINER" post) in
  (hasValidBypassComment sourceCode (sqlCall text, anc) = false ->
   CallExpression_handler sourceCode (sqlCall text, anc)
   = [bypassDetected (sqlCall text) "SECURITY DEFINER"])
  /\ preventRLSBypassRule sourceCode (Program [bareStatement text]) = []
  /\ preventRLSBypassRule sourceCode (Program [executedStatement text]) = [].
Proof.
  intros text. split; [|split; reflexivity].
  intros Hcomment. unfold CallExpression_handler. cbn [fst sqlCall].
  fold (sqlCall text). rewrite Hcomment.
  replace (isSecurityDefinerCall (sqlCall text)) with true.
  - reflexivity.
  - symmetry. unfold isSecurityDefinerCall, sqlCall, Js.join.
    cbn [fold_right]. rewrite RlsStatementFacts.append_empty_r.
    unfold text. rewrite securityDefiner_found. reflexivity.
Qed.

Lemma security_definer_needs_a_call_witness :
  CallExpression_handler Fixtures.uncommented
    (sqlCall "CREATE FUNCTION f() RETURNS void SECURITY DEFINER", [])
  = [bypassDetected
       (sqlCall "CREATE FUNCTION f() RETURNS void SECURITY DEFINER")
       "SECURITY DEFINER"].
Proof.
  exact (proj1 (security_definer_needs_a_call Fixtures.uncommented
                  "CREATE FUNCTION f() RETURNS void " "" [])
           eq_refl).
Defined.

End SecurityDefiner.
